(** * RopeBridge: the state graph of the bridge-and-torch puzzle

    A shallow embedding of [src/main.cpp].  The program packs a puzzle
    configuration into one [unsigned int] ([bridge_state_type]) and builds
    the graph of all configurations reachable from the start and the end
    configuration by single and double crossings ([main]).

    Machine integers are modelled as [Z] with the wrap-around of the C++
    type written out; operations whose behaviour the language leaves
    undefined (a shift by the width of the type or more, signed overflow,
    [__builtin_clz] of zero) yield the outcome [Undefined]. *)

From Stdlib Require Import ZArith Lia.
From stdpp Require Import base decidable option list gmap strings.

(** ** Outcomes of a C++ evaluation *)

Inductive error : Set :=
| PersonCountOutOfRange     (* std::invalid_argument, validate_people_count *)
| CrosserIndexOutOfRange    (* std::invalid_argument, validate_crosser_index *)
| DuplicateCrosserIndices   (* std::invalid_argument, after_double_crossing *)
| VectorIndexOutOfRange.    (* std::out_of_range, std::vector::at *)

Definition is_invalid_argument (e : error) : bool :=
  match e with
  | VectorIndexOutOfRange => false
  | _ => true
  end.

Inductive outcome (A : Type) : Type :=
| Ret (a : A)          (* the evaluation returns a *)
| Throw (e : error)    (* an exception leaves the evaluation *)
| AssertFail           (* an assert fails *)
| Undefined            (* undefined behaviour *)
| OutOfFuel.           (* the model's loop budget is used up *)

Arguments Ret {A} a.
Arguments Throw {A} e.
Arguments AssertFail {A}.
Arguments Undefined {A}.
Arguments OutOfFuel {A}.

#[global] Instance outcome_ret : MRet outcome := @Ret.
#[global] Instance outcome_bind : MBind outcome := fun A B f m =>
  match m with
  | Ret a => f a
  | Throw e => Throw e
  | AssertFail => AssertFail
  | Undefined => Undefined
  | OutOfFuel => OutOfFuel
  end.

Definition cxx_assert (b : bool) : outcome unit :=
  if b then Ret tt else AssertFail.

(** ** Machine arithmetic *)

Module Cxx.
Local Open Scope Z_scope.

(** [unsigned int] and [int] are 32 bits wide, [std::size_t] 64. *)
Definition int_value_type_bit_count : Z := 32.
Definition size_t_bit_count : Z := 64.

Definition to_unsigned (z : Z) : Z := z mod 2 ^ int_value_type_bit_count.
Definition to_size_t (z : Z) : Z := z mod 2 ^ size_t_bit_count.
Definition to_int (z : Z) : Z :=
  (z + 2 ^ (int_value_type_bit_count - 1)) mod 2 ^ int_value_type_bit_count
  - 2 ^ (int_value_type_bit_count - 1).

Definition in_int_range (z : Z) : bool :=
  (- 2 ^ (int_value_type_bit_count - 1) <=? z)
  && (z <? 2 ^ (int_value_type_bit_count - 1)).

(** [x << n] on [unsigned int]: undefined for [n] at least the width. *)
Definition shl_unsigned (x n : Z) : outcome Z :=
  if (0 <=? n) && (n <? int_value_type_bit_count)
  then Ret (to_unsigned (Z.shiftl x n))
  else Undefined.

(** [x << n] on [int] (C++20: the value congruent to [x * 2^n]). *)
Definition shl_int (x n : Z) : outcome Z :=
  if (0 <=? n) && (n <? int_value_type_bit_count)
  then Ret (to_int (Z.shiftl x n))
  else Undefined.

(** [x - y] on [int]: overflow is undefined. *)
Definition sub_int (x y : Z) : outcome Z :=
  if in_int_range (x - y) then Ret (x - y) else Undefined.

(** [__builtin_clz]: the number of leading zero bits, undefined on zero. *)
Definition builtin_clz (x : Z) : outcome Z :=
  if x =? 0 then Undefined
  else Ret (int_value_type_bit_count - 1 - Z.log2 x).

End Cxx.

(** ** The state codec: [bridge_state_type] *)

Record crossing_type : Set := {
  state_index_after_crossing : nat;
  time_to_cross : Z
}.

Record bridge_state_type : Set := {
  state_repr : Z;
  possible_crossings : list crossing_type
}.

(** [{.state_repr = v}]: the crossing list is value-initialised (empty). *)
Definition with_repr (v : Z) : bridge_state_type :=
  {| state_repr := v; possible_crossings := [] |}.

Module bridge_state.
Import Cxx.
Local Open Scope Z_scope.

Definition one_as_int_value_type : Z := 1.
Definition torch_bit : Z := one_as_int_value_type.
Definition min_people : Z := 1.
Definition max_people : Z := to_size_t (int_value_type_bit_count - 2).

Definition validate_people_count (people_count : Z) : outcome unit :=
  if (people_count <? min_people) || (people_count >? max_people)
  then Throw PersonCountOutOfRange
  else Ret tt.

Definition start (people_count : Z) : outcome bridge_state_type :=
  _ ← validate_people_count people_count;
  v ← shl_unsigned one_as_int_value_type (to_size_t (people_count + 1));
  Ret (with_repr v).

Definition end_ (people_count : Z) : outcome bridge_state_type :=
  _ ← validate_people_count people_count;
  v ← shl_unsigned one_as_int_value_type (to_size_t (people_count + 2));
  Ret (with_repr (to_unsigned (v - 1))).

Definition get_leading_one_pos (state_repr : Z) : outcome Z :=
  c ← builtin_clz state_repr;
  Ret (to_size_t (to_size_t (int_value_type_bit_count - 1) - c)).

Definition get_leading_one (state_repr : Z) : outcome Z :=
  pos ← get_leading_one_pos state_repr;
  shl_unsigned one_as_int_value_type pos.

Definition get_torch_crossed (s : bridge_state_type) : bool :=
  Z.land (state_repr s) 1 =? 1.

Definition validate_crosser_index (state_repr crosser_index : Z)
  : outcome unit :=
  leading_one_pos ← get_leading_one_pos state_repr;
  if crosser_index >=? to_size_t (leading_one_pos - 1)
  then Throw CrosserIndexOutOfRange
  else Ret tt.

(** [1 << crosser_index + 1] is an [int] shift, converted to
    [unsigned int] by the exclusive-or. *)
Definition crosser_bit (crosser_index : Z) : outcome Z :=
  b ← shl_int 1 (to_size_t (crosser_index + 1));
  Ret (to_unsigned b).

Definition after_single_crossing (prior_state : bridge_state_type)
    (crosser_index : Z) : outcome bridge_state_type :=
  _ ← validate_crosser_index (state_repr prior_state) crosser_index;
  b ← crosser_bit crosser_index;
  Ret (with_repr (Z.lxor (Z.lxor (state_repr prior_state) torch_bit) b)).

Definition after_double_crossing (prior_state : bridge_state_type)
    (first_crosser_index second_crosser_index : Z)
  : outcome bridge_state_type :=
  _ ← validate_crosser_index (state_repr prior_state) first_crosser_index;
  _ ← validate_crosser_index (state_repr prior_state) second_crosser_index;
  if first_crosser_index =? second_crosser_index
  then Throw DuplicateCrosserIndices
  else
    b1 ← crosser_bit first_crosser_index;
    b2 ← crosser_bit second_crosser_index;
    Ret (with_repr
           (Z.lxor (Z.lxor (Z.lxor (state_repr prior_state) torch_bit) b1) b2)).

Definition get_possible_crosser_indices (s : bridge_state_type) : outcome Z :=
  let torch_crossed := get_torch_crossed s in
  let result := Z.shiftr (state_repr s) 1 in
  leading_one ← get_leading_one result;
  let people_mask := to_unsigned (leading_one - 1) in
  let result := Z.land result people_mask in
  Ret (if negb torch_crossed then Z.lxor result people_mask else result).

End bridge_state.

(** ** [as_bits]: a configuration as text *)

(** [(word & bit ? "1" : "0")] *)
Definition bit_text (word bit : Z) : string :=
  if (Z.land word bit =? 0)%Z then "0" else "1".

(** The loop [for (bit = ...; bit != 1; bit >>= 1) result << ...;] for a
    [bit] that is not zero; the recursion follows the binary digits of
    [bit], as [bit >>= 1] does. *)
Fixpoint as_bits_loop (state_repr : Z) (bit : positive) (result : string)
  : string :=
  match bit with
  | xH => result
  | xO bit' | xI bit' =>
      as_bits_loop state_repr bit'
        (result +:+ bit_text state_repr (Zpos bit))
  end.

(** With [bit] zero the loop would never reach 1; the shift of one does
    not give zero. *)
Definition as_bits (state : bridge_state_type) : outcome string :=
  leading_one_pos ← bridge_state.get_leading_one_pos (state_repr state);
  bit ← Cxx.shl_unsigned bridge_state.one_as_int_value_type
          (Cxx.to_size_t (leading_one_pos - 1)%Z);
  match bit with
  | Zpos bit =>
      let result := as_bits_loop (state_repr state) bit EmptyString in
      let result := result +:+ " " in
      Ret (result +:+ bit_text (state_repr state) 1%Z)
  | _ => OutOfFuel
  end.

(** ** The graph builder *)

Record builder : Type := {
  states : list bridge_state_type;
  state_to_states_index : gmap Z nat;
  connection_count : nat
}.

(** [v.at(i)] *)
Definition vector_at {A} (v : list A) (i : nat) : outcome A :=
  match v !! i with
  | Some a => Ret a
  | None => Throw VectorIndexOutOfRange
  end.

Definition emplace_crossing (c : crossing_type) (s : bridge_state_type)
  : bridge_state_type :=
  {| state_repr := state_repr s;
     possible_crossings := possible_crossings s ++ [c] |}.

(** [states.at(i).possible_crossings.emplace_back(c)] *)
Definition add_crossing (sts : list bridge_state_type) (i : nat)
    (c : crossing_type) : outcome (list bridge_state_type) :=
  s ← vector_at sts i;
  Ret (<[i := emplace_crossing c s]> sts).

Definition connect (b : builder) (curr_state_index crossed_state_index : nat)
    (time : Z) : outcome builder :=
  sts ← add_crossing (states b) curr_state_index
        {| state_index_after_crossing := crossed_state_index;
           time_to_cross := time |};
  sts ← add_crossing sts crossed_state_index
        {| state_index_after_crossing := curr_state_index;
           time_to_cross := time |};
  Ret {| states := sts;
         state_to_states_index := state_to_states_index b;
         connection_count := S (connection_count b) |}.

Definition try_add_or_connect_crossed_state (b : builder)
    (curr_state_index : nat) (crossed_state : bridge_state_type)
    (time : Z) : outcome builder :=
  match state_to_states_index b !! state_repr crossed_state with
  | None =>
      let crossed_state_index := length (states b) in
      connect
        {| states := states b ++ [crossed_state];
           state_to_states_index :=
             <[state_repr crossed_state := crossed_state_index]>
               (state_to_states_index b);
           connection_count := connection_count b |}
        curr_state_index crossed_state_index time
  | Some crossed_state_index =>
      if (curr_state_index <? crossed_state_index)%nat
      then connect b curr_state_index crossed_state_index time
      else Ret b
  end.

(** The three bit-scanning loops of [main] share one shape:
    [for (w = w0; w != 0; ++index, w >>= 1) { if ((w & 1) == 0) continue; body }].
    The recursion follows the binary digits of [w]: the lowest digit is
    [w & 1], the remaining digits are [w >> 1]. *)
Fixpoint scan_bits {S : Type} (body : Z → Z → S → outcome S)
    (w : positive) (index : Z) (s : S) : outcome S :=
  match w with
  | xH => body (Zpos w) index s
  | xO w' => scan_bits body w' (Cxx.to_size_t (index + 1)) s
  | xI w' =>
      s' ← body (Zpos w) index s;
      scan_bits body w' (Cxx.to_size_t (index + 1)) s'
  end.

Definition for_each_set_bit {S : Type} (body : Z → Z → S → outcome S)
    (w : Z) (index : Z) (s : S) : outcome S :=
  match w with
  | Zpos p => scan_bits body p index s
  | _ => Ret s
  end.

Section Main.
Variable times_to_cross : list Z.

Definition people_count : Z := Z.of_nat (length times_to_cross).

(** [(1 << people_count + 1) - 2], an [int] computation; the value only
    pre-sizes the node list ([states.reserve]). *)
Definition max_possible_states : outcome Z :=
  v ← Cxx.shl_int 1 (Cxx.to_size_t (people_count + 1));
  Cxx.sub_int v 2.

(** The bodies of the three loops.  The first argument is the value of
    the scanned word when the body runs.  C++ leaves the order in which the
    arguments of [try_add_or_connect_crossed_state] are evaluated open; the
    crossing is evaluated before the times here. *)
Definition single_crossing_step (curr_state_index : nat)
    (curr_state_copy : bridge_state_type)
    (_ single_crosser_index : Z) (b : builder) : outcome builder :=
  _ ← cxx_assert (single_crosser_index <? people_count)%Z;
  crossed ← bridge_state.after_single_crossing curr_state_copy
              single_crosser_index;
  t ← vector_at times_to_cross (Z.to_nat single_crosser_index);
  try_add_or_connect_crossed_state b curr_state_index crossed t.

Definition second_crosser_step (curr_state_index : nat)
    (curr_state_copy : bridge_state_type) (first_crosser_index : Z)
    (_ second_crosser_index : Z) (b : builder) : outcome builder :=
  _ ← cxx_assert (second_crosser_index <? people_count)%Z;
  crossed ← bridge_state.after_double_crossing curr_state_copy
              first_crosser_index second_crosser_index;
  t1 ← vector_at times_to_cross (Z.to_nat first_crosser_index);
  t2 ← vector_at times_to_cross (Z.to_nat second_crosser_index);
  try_add_or_connect_crossed_state b curr_state_index crossed (Z.max t1 t2).

Definition first_crosser_step (curr_state_index : nat)
    (curr_state_copy : bridge_state_type)
    (first_crosser_iterated first_crosser_index : Z) (b : builder)
  : outcome builder :=
  _ ← cxx_assert (first_crosser_index <? people_count)%Z;
  for_each_set_bit
    (second_crosser_step curr_state_index curr_state_copy first_crosser_index)
    (Z.shiftr first_crosser_iterated 1)
    (Cxx.to_size_t (first_crosser_index + 1)) b.

(** One turn of the outer loop of [main]. *)
Definition process_state (curr_state_index : nat) (b : builder)
  : outcome builder :=
  curr_state_copy ← vector_at (states b) curr_state_index;
  possible_crosser_indices ←
    bridge_state.get_possible_crosser_indices curr_state_copy;
  b ← for_each_set_bit (single_crossing_step curr_state_index curr_state_copy)
        possible_crosser_indices 0%Z b;
  for_each_set_bit (first_crosser_step curr_state_index curr_state_copy)
    possible_crosser_indices 0%Z b.

(** The outer loop: the node list is its own worklist. *)
Fixpoint main_loop (fuel : nat) (curr_state_index : nat) (b : builder)
  : outcome builder :=
  match fuel with
  | O => OutOfFuel
  | S fuel' =>
      if (curr_state_index <? length (states b))%nat
      then
        b' ← process_state curr_state_index b;
        main_loop fuel' (S curr_state_index) b'
      else Ret b
  end.

Definition initial_builder : outcome builder :=
  start_state ← bridge_state.start people_count;
  let map := <[state_repr start_state := 0%nat]> (∅ : gmap Z nat) in
  let sts := [start_state] in
  end_state ← bridge_state.end_ people_count;
  let map := <[state_repr end_state := length sts]> map in
  let sts := sts ++ [end_state] in
  Ret {| states := sts; state_to_states_index := map; connection_count := 0 |}.

(** [main], up to the end of the construction; the result is the node list. *)
Definition main (fuel : nat) : outcome (list bridge_state_type) :=
  _ ← max_possible_states;
  b ← initial_builder;
  b ← main_loop fuel 0 b;
  Ret (states b).

End Main.

Definition example_times : list Z := [1; 10; 100; 1000]%Z.

(** * Vocabulary of the properties *)

Section Vocabulary.
Local Open Scope Z_scope.

(** A configuration of [n] people: the sentinel is bit [n + 1], the person
    bits are bits [1 .. n], the torch bit is bit [0]. *)
Definition is_configuration (n s : Z) : Prop :=
  (1 ≤ n ≤ bridge_state.max_people ∧ 2 ^ (n + 1) ≤ s < 2 ^ (n + 2))%Z.

(** Person [i] has crossed / the torch has crossed. *)
Definition person_crossed (s i : Z) : bool := Z.testbit s (i + 1).

Definition torch_crossed (s : Z) : bool := Z.testbit s 0.

(** The number of set bits of a word. *)
Fixpoint popcount_pos (p : positive) : nat :=
  match p with
  | xH => 1
  | xO p' => popcount_pos p'
  | xI p' => S (popcount_pos p')
  end.

Definition popcount (z : Z) : nat :=
  match z with
  | Zpos p => popcount_pos p
  | _ => 0
  end.

(** The word after person [i] (and the torch) changed banks. *)
Definition flip1 (s i : Z) : Z := Z.lxor (Z.lxor s 1) (2 ^ (i + 1)).

Definition flip2 (s i j : Z) : Z :=
  Z.lxor (Z.lxor (Z.lxor s 1) (2 ^ (i + 1))) (2 ^ (j + 1)).

(** Person [i] of [n] may cross next: they stand on the bank of the
    torch. *)
Definition eligible (n s i : Z) : bool :=
  (i <? n) && Bool.eqb (person_crossed s i) (torch_crossed s).

(** A step run over a list, threading the state; the first step that does
    not return ends the run. *)
Fixpoint foldM {S A : Type} (f : A → S → outcome S) (l : list A) (s : S)
  : outcome S :=
  match l with
  | [] => Ret s
  | a :: l' => s' ← f a s; foldM f l' s'
  end.

(** The set bits of [w], lowest first: each with the value the scanned
    word has when the loop reaches it, and with its index. *)
Fixpoint set_bits (w : positive) (index : Z) : list (Z * Z) :=
  match w with
  | xH => [(Zpos w, index)]
  | xO w' => set_bits w' (index + 1)
  | xI w' => (Zpos w, index) :: set_bits w' (index + 1)
  end.

Definition set_bits_of (w : Z) (index : Z) : list (Z * Z) :=
  match w with
  | Zpos p => set_bits p index
  | _ => []
  end.

(** The configuration of node [i]. *)
Definition node_repr (sts : list bridge_state_type) (i : nat) : option Z :=
  state_repr <$> sts !! i.

(** The crossing records of node [i]. *)
Definition crossings_at (sts : list bridge_state_type) (i : nat)
  : list crossing_type :=
  from_option possible_crossings [] (sts !! i).

(** Node [u] records a crossing to node [v] with time [t]. *)
Definition edge (sts : list bridge_state_type) (u v : nat) (t : Z) : Prop :=
  {| state_index_after_crossing := v; time_to_cross := t |}
    ∈ crossings_at sts u.

(** The records [connect] appends to node [i]. *)
Definition linked (u v : nat) (t : Z) (i : nat) : list crossing_type :=
  if decide (i = v)
  then [{| state_index_after_crossing := u; time_to_cross := t |}]
  else if decide (i = u)
  then [{| state_index_after_crossing := v; time_to_cross := t |}]
  else [].

(** The text of the bits [k .. 1] of a word, highest first. *)
Fixpoint person_bits_text (s : Z) (k : nat) : string :=
  match k with
  | O => EmptyString
  | S k' =>
      (if Z.testbit s (Z.of_nat k) then "1" else "0")
        +:+ person_bits_text s k'
  end.

(** A reader of such a text: the digits, highest first, pushed into [acc];
    other characters are passed over. *)
Fixpoint read_bits (text : string) (acc : Z) : Z :=
  match text with
  | EmptyString => acc
  | String c rest =>
      if String.eqb (String c EmptyString) "1"
      then read_bits rest (2 * acc + 1)
      else if String.eqb (String c EmptyString) "0"
      then read_bits rest (2 * acc)
      else read_bits rest acc
  end.

(** In the configuration [s] of [n] people somebody stands on the bank of
    the torch. *)
Definition live (n s : Z) : Prop := ∃ k, 0 ≤ k ∧ eligible n s k = true.

(** Node [v] is reached from node [u] along crossing records. *)
Inductive reachable (g : list bridge_state_type) (u : nat) : nat → Prop :=
| reachable_refl : reachable g u u
| reachable_step v w t :
    reachable g u v → edge g v w t → reachable g u w.

(** Every node but the first two has a record to a node of lower index. *)
Definition lower_record (b : builder) : Prop :=
  ∀ v, (2 ≤ v < length (states b))%nat →
    ∃ u t, (u < v)%nat ∧ edge (states b) v u t.

(** The number of crossing records of all nodes. *)
Definition total_records (sts : list bridge_state_type) : nat :=
  sum_list_with (λ s, length (possible_crossings s)) sts.

End Vocabulary.

Section CrossingVocabulary.
Local Open Scope Z_scope.
Variable times_to_cross : list Z.
Abbreviation n := (people_count times_to_cross).

(** [times_to_cross.at(i)] for an index in range. *)
Definition time_of (i : Z) : Z := default 0 (times_to_cross !! Z.to_nat i).

(** [crossing s r t]: from configuration [s] one eligible person, or two
    distinct eligible people, cross and reach [r]; [t] is the time of the
    single crosser or the larger of the two crossers' times. *)
Inductive crossing (s : Z) : Z → Z → Prop :=
| crossing_single i :
    0 ≤ i → eligible n s i = true →
    crossing s (flip1 s i) (time_of i)
| crossing_double i j :
    0 ≤ i < j → eligible n s i = true → eligible n s j = true →
    crossing s (flip2 s i j) (Z.max (time_of i) (time_of j)).

(** The calls of [try_add_or_connect_crossed_state] one turn of the outer
    loop makes, as (crossed configuration, time) pairs in call order, for
    the eligibility mask [m] of the configuration [s]. *)
Definition single_moves (m s : Z) : list (Z * Z) :=
  (λ p, (flip1 s p.2, time_of p.2)) <$> set_bits_of m 0.

Definition double_moves (m s : Z) : list (Z * Z) :=
  set_bits_of m 0 ≫= λ p,
    (λ q, (flip2 s p.2 q.2, Z.max (time_of p.2) (time_of q.2)))
      <$> set_bits_of (Z.shiftr p.1 1) (p.2 + 1).

Definition moves (m s : Z) : list (Z * Z) :=
  single_moves m s ++ double_moves m s.

(** [inv curr done b]: the builder [b] while the outer loop is at node
    [curr] and has made the calls [done] for it. *)
Record inv (curr : nat) (done : list (Z * Z)) (b : builder) : Prop := {
  inv_map : ∀ r i,
    state_to_states_index b !! r = Some i ↔ node_repr (states b) i = Some r;
  inv_conf : ∀ i r,
    node_repr (states b) i = Some r → is_configuration n r;
  inv_sym : ∀ u v t, edge (states b) u v t → edge (states b) v u t;
  inv_legal : ∀ u v t, edge (states b) u v t →
    ∃ ru rv, node_repr (states b) u = Some ru
      ∧ node_repr (states b) v = Some rv
      ∧ crossing ru rv t;
  inv_order : ∀ u v t, edge (states b) u v t → (u < v)%nat →
    (u < curr)%nat
    ∨ (u = curr ∧ ∃ rv, node_repr (states b) v = Some rv ∧ rv ∈ done.*1);
  inv_complete : ∀ u ru r t,
    node_repr (states b) u = Some ru →
    ((u < curr)%nat ∧ crossing ru r t)
    ∨ (u = curr ∧ (r, t) ∈ done) →
    ∃ v, node_repr (states b) v = Some r ∧ edge (states b) u v t;
  inv_nodup : ∀ u,
    NoDup (state_index_after_crossing <$> crossings_at (states b) u)
}.

(** The fuel that always suffices. *)
Definition enough_fuel : nat := S (Z.to_nat (2 ^ (n + 1))).

(** [main] returns the node list [g], whatever fuel beyond
    [enough_fuel] the loop is given. *)
Definition returns (g : list bridge_state_type) : Prop :=
  ∀ fuel, (enough_fuel ≤ fuel)%nat →
    main times_to_cross fuel = Ret g.

(** Every legal crossing from the configuration of a node is recorded. *)
Definition crossings_recorded (g : list bridge_state_type) : Prop :=
  ∀ u ru r t, node_repr g u = Some ru → crossing ru r t →
    ∃ v, node_repr g v = Some r ∧ edge g u v t.

(** Every record is a legal crossing between the configurations of its
    two nodes. *)
Definition records_legal (g : list bridge_state_type) : Prop :=
  ∀ u v t, edge g u v t →
    ∃ ru rv, node_repr g u = Some ru ∧ node_repr g v = Some rv
      ∧ crossing ru rv t.

(** The time of a record is the time of the single crosser or the larger
    time of the two crossers that lead from the one node to the other. *)
Definition documented_cost (g : list bridge_state_type) : Prop :=
  ∀ u v t su sv, edge g u v t → g !! u = Some su → g !! v = Some sv →
    ((∃ i, 0 ≤ i
        ∧ bridge_state.after_single_crossing su i
          = Ret (with_repr (state_repr sv)))
     ∨ (∃ i j, 0 ≤ i ∧ 0 ≤ j
        ∧ bridge_state.after_double_crossing su i j
          = Ret (with_repr (state_repr sv))))
    ∧ (∀ i, 0 ≤ i →
         bridge_state.after_single_crossing su i
         = Ret (with_repr (state_repr sv)) →
         vector_at times_to_cross (Z.to_nat i) = Ret t)
    ∧ (∀ i j, 0 ≤ i → 0 ≤ j →
         bridge_state.after_double_crossing su i j
         = Ret (with_repr (state_repr sv)) →
         ∃ ti tj, vector_at times_to_cross (Z.to_nat i) = Ret ti
           ∧ vector_at times_to_cross (Z.to_nat j) = Ret tj
           ∧ t = Z.max ti tj).

End CrossingVocabulary.



Definition no_self_loop (g : list bridge_state_type) : Prop :=
  ∀ u v t, edge g u v t → v ≠ u.

(** The states the codec can hand out for [n] people: [start], [end] and
    what crossings make of them; crosser indices are [std::size_t]. *)
Inductive constructed (n : Z) : bridge_state_type → Prop :=
| constructed_start s :
    bridge_state.start n = Ret s → constructed n s
| constructed_end s :
    bridge_state.end_ n = Ret s → constructed n s
| constructed_single s i s' :
    constructed n s → (0 ≤ i)%Z →
    bridge_state.after_single_crossing s i = Ret s' → constructed n s'
| constructed_double s i j s' :
    constructed n s → (0 ≤ i)%Z → (0 ≤ j)%Z →
    bridge_state.after_double_crossing s i j = Ret s' → constructed n s'.

(** What the calls of [get_leading_one_pos] on a state need: the state
    and the state shifted right once are not zero. *)
Definition leading_one_defined (n : Z) (s : bridge_state_type) : Prop :=
  (state_repr s ≠ 0
   ∧ Z.testbit (state_repr s) (n + 1) = true
   ∧ bridge_state.get_leading_one_pos (state_repr s) = Ret (n + 1)
   ∧ Z.shiftr (state_repr s) 1 ≠ 0
   ∧ bridge_state.get_leading_one_pos (Z.shiftr (state_repr s) 1) = Ret n)%Z.

(** * Proofs *)

(** Case analysis on the comparisons of a goal. *)
Ltac cmp_cases :=
  repeat match goal with
  | |- context [Z.gtb ?a ?b] => rewrite (Z.gtb_ltb a b)
  | |- context [Z.geb ?a ?b] => rewrite (Z.geb_leb a b)
  | |- context [Z.ltb ?a ?b] => destruct (Z.ltb_spec a b)
  | |- context [Z.leb ?a ?b] => destruct (Z.leb_spec a b)
  | |- context [Z.eqb ?a ?b] => destruct (Z.eqb_spec a b)
  end; simpl.

(** ** Facts about the machine arithmetic *)

Section CxxFacts.
Import Cxx.
Local Open Scope Z_scope.

Lemma to_size_t_small z : 0 ≤ z < 2 ^ 64 → to_size_t z = z.
Proof. intros H. unfold to_size_t, size_t_bit_count. by apply Z.mod_small. Qed.

Lemma to_unsigned_small z : 0 ≤ z < 2 ^ 32 → to_unsigned z = z.
Proof.
  intros H. unfold to_unsigned, int_value_type_bit_count. by apply Z.mod_small.
Qed.

Lemma to_unsigned_to_int z : to_unsigned (to_int z) = to_unsigned z.
Proof.
  unfold to_unsigned, to_int, int_value_type_bit_count.
  change (2 ^ (32 - 1)) with 2147483648. change (2 ^ 32) with 4294967296.
  rewrite Zminus_mod_idemp_l. f_equal. lia.
Qed.

Lemma pow2_le_mono a b : 0 ≤ a ≤ b → 2 ^ a ≤ 2 ^ b.
Proof. intros H. apply Z.pow_le_mono_r; lia. Qed.

Lemma pow2_lt_mono a b : 0 ≤ a < b → 2 ^ a < 2 ^ b.
Proof. intros H. apply Z.pow_lt_mono_r; lia. Qed.

Lemma pow2_pos a : 0 ≤ a → 0 < 2 ^ a.
Proof. intros H. apply Z.pow_pos_nonneg; lia. Qed.

Lemma shl_unsigned_one n :
  0 ≤ n < 32 → shl_unsigned 1 n = Ret (2 ^ n).
Proof.
  intros H. unfold shl_unsigned, int_value_type_bit_count.
  rewrite (proj2 (Z.leb_le 0 n)), (proj2 (Z.ltb_lt n 32)) by lia. simpl.
  rewrite Z.shiftl_1_l, to_unsigned_small; [done|].
  split; [apply Z.lt_le_incl, pow2_pos; lia | apply pow2_lt_mono; lia].
Qed.

Lemma shl_unsigned_width x n : 32 ≤ n → shl_unsigned x n = Undefined.
Proof.
  intros H. unfold shl_unsigned, int_value_type_bit_count.
  rewrite (proj2 (Z.ltb_ge n 32)) by lia. by rewrite andb_false_r.
Qed.

Lemma builtin_clz_pos x :
  0 < x → builtin_clz x = Ret (31 - Z.log2 x).
Proof.
  intros H. unfold builtin_clz, int_value_type_bit_count.
  rewrite (proj2 (Z.eqb_neq x 0)) by lia. done.
Qed.

Lemma log2_sentinel k s : 0 ≤ k → 2 ^ k ≤ s < 2 ^ (k + 1) → Z.log2 s = k.
Proof. intros Hk H. apply Z.log2_unique; [done|]. by rewrite <- Z.add_1_r. Qed.

Lemma shiftr_sentinel k s :
  0 ≤ k → (2 ^ k ≤ s < 2 ^ (k + 1) ↔ Z.shiftr s k = 1).
Proof.
  intros Hk. rewrite Z.shiftr_div_pow2 by done.
  pose proof (pow2_pos k Hk) as Hp. rewrite Z.pow_add_r, Z.pow_1_r by lia.
  split.
  - intros H. symmetry. apply (Z.div_unique s (2 ^ k) 1 (s - 2 ^ k)); lia.
  - intros H. pose proof (Z.div_mod s (2 ^ k) ltac:(lia)) as Hdm.
    pose proof (Z.mod_pos_bound s (2 ^ k) Hp). rewrite H in Hdm. lia.
Qed.

End CxxFacts.

(** ** Facts about the state codec *)

Section CodecFacts.
Import Cxx bridge_state.
Local Open Scope Z_scope.

Lemma max_people_eq : max_people = 30.
Proof. reflexivity. Qed.

Lemma validate_people_count_ok n :
  1 ≤ n ≤ max_people → validate_people_count n = Ret tt.
Proof.
  rewrite max_people_eq. intros H. unfold validate_people_count.
  rewrite max_people_eq. unfold min_people. by cmp_cases; try lia.
Qed.

Lemma validate_people_count_throw n :
  ¬ (1 ≤ n ≤ max_people) →
  validate_people_count n = Throw PersonCountOutOfRange.
Proof.
  rewrite max_people_eq. intros H. unfold validate_people_count.
  rewrite max_people_eq. unfold min_people. by cmp_cases; try lia.
Qed.

Lemma start_ok n :
  1 ≤ n ≤ max_people → start n = Ret (with_repr (2 ^ (n + 1))).
Proof.
  intros H. unfold start. rewrite validate_people_count_ok by done.
  rewrite max_people_eq in H. simpl.
  rewrite to_size_t_small by lia.
  unfold one_as_int_value_type. rewrite shl_unsigned_one by lia. done.
Qed.

Lemma end_ok n :
  1 ≤ n < max_people → end_ n = Ret (with_repr (2 ^ (n + 2) - 1)).
Proof.
  intros H. unfold end_. rewrite validate_people_count_ok by lia.
  rewrite max_people_eq in H. simpl.
  rewrite to_size_t_small by lia.
  unfold one_as_int_value_type. rewrite shl_unsigned_one by lia. simpl.
  rewrite to_unsigned_small; [done|].
  pose proof (pow2_pos (n + 2)). pose proof (pow2_lt_mono (n + 2) 32). lia.
Qed.

Lemma end_max_people : end_ max_people = Undefined.
Proof. reflexivity. Qed.

Lemma start_throw n :
  ¬ (1 ≤ n ≤ max_people) → start n = Throw PersonCountOutOfRange.
Proof. intros H. unfold start. by rewrite validate_people_count_throw. Qed.

Lemma end_throw n :
  ¬ (1 ≤ n ≤ max_people) → end_ n = Throw PersonCountOutOfRange.
Proof. intros H. unfold end_. by rewrite validate_people_count_throw. Qed.

Lemma configuration_start n :
  1 ≤ n ≤ max_people → is_configuration n (2 ^ (n + 1)).
Proof.
  intros H. split; [done|]. split; [lia|]. apply pow2_lt_mono. lia.
Qed.

Lemma configuration_end n :
  1 ≤ n ≤ max_people → is_configuration n (2 ^ (n + 2) - 1).
Proof.
  intros H. split; [done|]. split; [|lia].
  replace (n + 2) with (n + 1 + 1) by lia.
  rewrite (Z.pow_add_r 2 (n + 1) 1) by lia.
  pose proof (pow2_pos (n + 1)). lia.
Qed.

Lemma configuration_word n s :
  is_configuration n s → 4 ≤ s < 2 ^ 32.
Proof.
  intros [Hn Hs]. rewrite max_people_eq in Hn.
  pose proof (pow2_le_mono 2 (n + 1)). pose proof (pow2_le_mono (n + 2) 32).
  change (2 ^ 2) with 4 in *. lia.
Qed.

Lemma configuration_log2 n s : is_configuration n s → Z.log2 s = n + 1.
Proof.
  intros [Hn Hs]. apply log2_sentinel; [lia|].
  by replace (n + 1 + 1) with (n + 2) by lia.
Qed.

Lemma get_leading_one_pos_word s :
  0 < s < 2 ^ 32 → get_leading_one_pos s = Ret (Z.log2 s).
Proof.
  intros H. unfold get_leading_one_pos. rewrite builtin_clz_pos by lia. simpl.
  assert (0 ≤ Z.log2 s < 32) as Hl.
  { split; [apply Z.log2_nonneg|]. apply Z.log2_lt_pow2; lia. }
  unfold int_value_type_bit_count. f_equal.
  rewrite (to_size_t_small (32 - 1)) by lia.
  rewrite to_size_t_small; lia.
Qed.

Lemma get_leading_one_pos_zero : get_leading_one_pos 0 = Undefined.
Proof. reflexivity. Qed.

Lemma get_leading_one_pos_configuration n s :
  is_configuration n s → get_leading_one_pos s = Ret (n + 1).
Proof.
  intros H. pose proof (configuration_word _ _ H).
  rewrite get_leading_one_pos_word by lia. by rewrite (configuration_log2 n).
Qed.

Lemma validate_crosser_index_configuration n s i :
  is_configuration n s →
  validate_crosser_index s i
  = if n <=? i then Throw CrosserIndexOutOfRange else Ret tt.
Proof.
  intros H. unfold validate_crosser_index.
  rewrite (get_leading_one_pos_configuration n) by done. simpl.
  destruct H as [Hn _]. rewrite max_people_eq in Hn.
  rewrite to_size_t_small by lia. replace (n + 1 - 1) with n by lia.
  by rewrite Z.geb_leb.
Qed.

Lemma crosser_bit_ok i : 0 ≤ i ≤ 30 → crosser_bit i = Ret (2 ^ (i + 1)).
Proof.
  intros H. unfold crosser_bit. rewrite to_size_t_small by lia.
  unfold shl_int, int_value_type_bit_count.
  rewrite (proj2 (Z.leb_le 0 (i + 1))), (proj2 (Z.ltb_lt (i + 1) 32)) by lia.
  simpl. rewrite to_unsigned_to_int, Z.shiftl_1_l, to_unsigned_small; [done|].
  pose proof (pow2_pos (i + 1)). pose proof (pow2_lt_mono (i + 1) 32). lia.
Qed.

Lemma testbit_one k : 0 ≤ k → Z.testbit 1 k = (k =? 0).
Proof.
  intros H. change 1 with (2 ^ 0). rewrite Z.pow2_bits_eqb by lia.
  by rewrite Z.eqb_sym.
Qed.

Lemma testbit_flip1 s i k :
  0 ≤ i → 0 ≤ k →
  Z.testbit (flip1 s i) k
  = xorb (Z.testbit s k) ((k =? 0) || (k =? i + 1)).
Proof.
  intros Hi Hk. unfold flip1.
  rewrite !Z.lxor_spec, testbit_one, Z.pow2_bits_eqb by lia.
  rewrite (Z.eqb_sym (i + 1) k).
  destruct (Z.testbit s k), (Z.eqb_spec k 0), (Z.eqb_spec k (i + 1));
    simpl; try done; lia.
Qed.

Lemma testbit_flip2 s i j k :
  0 ≤ i → 0 ≤ j → i ≠ j → 0 ≤ k →
  Z.testbit (flip2 s i j) k
  = xorb (Z.testbit s k) ((k =? 0) || (k =? i + 1) || (k =? j + 1)).
Proof.
  intros Hi Hj Hij Hk. unfold flip2.
  rewrite !Z.lxor_spec, testbit_one, !Z.pow2_bits_eqb by lia.
  rewrite (Z.eqb_sym (i + 1) k), (Z.eqb_sym (j + 1) k).
  destruct (Z.testbit s k), (Z.eqb_spec k 0), (Z.eqb_spec k (i + 1)),
    (Z.eqb_spec k (j + 1)); simpl; try done; lia.
Qed.

Lemma shiftr_small a k : 0 ≤ a < 2 ^ k → 0 ≤ k → Z.shiftr a k = 0.
Proof. intros H Hk. rewrite Z.shiftr_div_pow2 by done. by apply Z.div_small. Qed.

Lemma bits_below n m :
  0 ≤ n → (∀ i, n ≤ i → Z.testbit m i = false) → 0 ≤ m < 2 ^ n.
Proof.
  intros Hn Hm. assert (m = m mod 2 ^ n) as ->.
  { rewrite <- Z.land_ones by done. apply Z.bits_inj'. intros k Hk.
    rewrite Z.land_spec, Z.testbit_ones_nonneg by lia.
    destruct (Z.ltb_spec k n); [by rewrite andb_true_r|].
    by rewrite Hm, andb_false_r. }
  apply Z.mod_pos_bound, pow2_pos. done.
Qed.

Lemma configuration_flip1 n s i :
  is_configuration n s → 0 ≤ i < n → is_configuration n (flip1 s i).
Proof.
  intros [Hn Hs] Hi. split; [done|].
  replace (n + 2) with (n + 1 + 1) in * by lia.
  apply shiftr_sentinel; [lia|]. apply shiftr_sentinel in Hs; [|lia].
  unfold flip1. rewrite !Z.shiftr_lxor, Hs.
  rewrite (shiftr_small 1), (shiftr_small (2 ^ (i + 1))); [done| |lia| |lia].
  - pose proof (pow2_pos (i + 1)). pose proof (pow2_lt_mono (i + 1) (n + 1)). lia.
  - pose proof (pow2_lt_mono 0 (n + 1)). change (2 ^ 0) with 1 in *. lia.
Qed.

Lemma configuration_flip2 n s i j :
  is_configuration n s → 0 ≤ i < n → 0 ≤ j < n →
  is_configuration n (flip2 s i j).
Proof.
  intros [Hn Hs] Hi Hj. split; [done|].
  replace (n + 2) with (n + 1 + 1) in * by lia.
  apply shiftr_sentinel; [lia|]. apply shiftr_sentinel in Hs; [|lia].
  unfold flip2. rewrite !Z.shiftr_lxor, Hs.
  rewrite (shiftr_small 1), (shiftr_small (2 ^ (i + 1))),
    (shiftr_small (2 ^ (j + 1))); [done| |lia| |lia| |lia].
  - pose proof (pow2_pos (j + 1)). pose proof (pow2_lt_mono (j + 1) (n + 1)). lia.
  - pose proof (pow2_pos (i + 1)). pose proof (pow2_lt_mono (i + 1) (n + 1)). lia.
  - pose proof (pow2_lt_mono 0 (n + 1)). change (2 ^ 0) with 1 in *. lia.
Qed.

Lemma after_single_crossing_ok n s i :
  is_configuration n (state_repr s) → 0 ≤ i < n →
  after_single_crossing s i = Ret (with_repr (flip1 (state_repr s) i)).
Proof.
  intros H Hi. unfold after_single_crossing.
  rewrite (validate_crosser_index_configuration n) by done.
  destruct H as [Hn _]. rewrite max_people_eq in Hn.
  rewrite (proj2 (Z.leb_gt n i)) by lia. simpl.
  rewrite crosser_bit_ok by lia. done.
Qed.

Lemma after_single_crossing_throw n s i :
  is_configuration n (state_repr s) → n ≤ i →
  after_single_crossing s i = Throw CrosserIndexOutOfRange.
Proof.
  intros H Hi. unfold after_single_crossing.
  rewrite (validate_crosser_index_configuration n) by done.
  by rewrite (proj2 (Z.leb_le n i)) by lia.
Qed.

Lemma after_double_crossing_ok n s i j :
  is_configuration n (state_repr s) → 0 ≤ i < n → 0 ≤ j < n → i ≠ j →
  after_double_crossing s i j = Ret (with_repr (flip2 (state_repr s) i j)).
Proof.
  intros H Hi Hj Hij. unfold after_double_crossing.
  rewrite !(validate_crosser_index_configuration n) by done.
  destruct H as [Hn _]. rewrite max_people_eq in Hn.
  rewrite (proj2 (Z.leb_gt n i)), (proj2 (Z.leb_gt n j)) by lia. simpl.
  rewrite (proj2 (Z.eqb_neq i j)) by done.
  rewrite !crosser_bit_ok by lia. done.
Qed.

Lemma after_double_crossing_fails n s i j :
  is_configuration n (state_repr s) → i = j ∨ n ≤ i ∨ n ≤ j →
  ∃ e, after_double_crossing s i j = Throw e ∧ is_invalid_argument e = true.
Proof.
  intros H Hij. unfold after_double_crossing.
  rewrite !(validate_crosser_index_configuration n) by done.
  destruct (Z.leb_spec n i); simpl; [by eexists|].
  destruct (Z.leb_spec n j); simpl; [by eexists|].
  rewrite (proj2 (Z.eqb_eq i j)) by lia. by eexists.
Qed.

Lemma get_torch_crossed_testbit s :
  get_torch_crossed s = torch_crossed (state_repr s).
Proof.
  unfold get_torch_crossed, torch_crossed.
  change 1 with (Z.ones 1) at 1. rewrite Z.land_ones by lia.
  change (2 ^ 1) with 2. rewrite <- Z.bit0_mod.
  by destruct (Z.testbit (state_repr s) 0).
Qed.

Lemma get_possible_crosser_indices_ok n s :
  is_configuration n (state_repr s) →
  ∃ m, get_possible_crosser_indices s = Ret m
       ∧ 0 ≤ m < 2 ^ n
       ∧ ∀ i, 0 ≤ i → Z.testbit m i = eligible n (state_repr s) i.
Proof.
  intros [Hn Hs]. rewrite max_people_eq in Hn.
  unfold get_possible_crosser_indices.
  set (r := Z.shiftr (state_repr s) 1).
  assert (2 ^ n ≤ r < 2 ^ (n + 1)) as Hr.
  { apply shiftr_sentinel; [lia|]. unfold r.
    rewrite Z.shiftr_shiftr by lia. rewrite (Z.add_comm 1 n).
    apply shiftr_sentinel; [lia|]. by replace (n + 1 + 1) with (n + 2) by lia. }
  assert (0 < r < 2 ^ 32) as Hw.
  { pose proof (pow2_pos n). pose proof (pow2_le_mono (n + 1) 32). lia. }
  unfold get_leading_one. rewrite get_leading_one_pos_word by done.
  rewrite (log2_sentinel n) by (done || lia). simpl.
  unfold one_as_int_value_type. rewrite shl_unsigned_one by lia. simpl.
  rewrite to_unsigned_small
    by (pose proof (pow2_pos n); pose proof (pow2_lt_mono n 32); lia).
  replace (2 ^ n - 1) with (Z.ones n) by (rewrite Z.ones_equiv; lia).
  rewrite get_torch_crossed_testbit.
  assert (∀ i, 0 ≤ i →
    Z.testbit (Z.land r (Z.ones n)) i
    = (i <? n) && person_crossed (state_repr s) i) as Hbits.
  { intros i Hi. rewrite Z.land_spec, Z.testbit_ones_nonneg by lia.
    unfold r, person_crossed. rewrite Z.shiftr_spec by lia. apply andb_comm. }
  assert (∀ i, 0 ≤ i →
    Z.testbit
      (if negb (torch_crossed (state_repr s))
       then Z.lxor (Z.land r (Z.ones n)) (Z.ones n)
       else Z.land r (Z.ones n)) i
    = eligible n (state_repr s) i) as Hel; last first.
  { eexists. split; [done|]. split; [|done].
    apply bits_below; [lia|]. intros i Hi. rewrite Hel by lia.
    unfold eligible. by rewrite (proj2 (Z.ltb_ge i n)) by lia. }
  intros i Hi. unfold eligible.
  destruct (torch_crossed (state_repr s)); simpl.
  - rewrite Hbits by done.
    by destruct (i <? n), (person_crossed (state_repr s) i).
  - rewrite Z.lxor_spec, Hbits, Z.testbit_ones_nonneg by lia.
    by destruct (i <? n), (person_crossed (state_repr s) i).
Qed.

End CodecFacts.

(** ** The bit-scanning loops as folds *)

Section ScanFacts.
Local Open Scope Z_scope.
Context {S : Type}.

Lemma foldM_app {A} (f : A → S → outcome S) l1 l2 s :
  foldM f (l1 ++ l2) s = (s' ← foldM f l1 s; foldM f l2 s').
Proof.
  revert s. induction l1 as [|a l1 IH]; intros s; simpl; [done|].
  destruct (f a s); simpl; auto.
Qed.

Lemma foldM_ext {A} (f g : A → S → outcome S) l s :
  (∀ a s', a ∈ l → f a s' = g a s') → foldM f l s = foldM g l s.
Proof.
  revert s. induction l as [|a l IH]; intros s H; simpl; [done|].
  rewrite H by left. destruct (g a s); simpl; try done.
  apply IH. intros. apply H. by right.
Qed.

Lemma foldM_fmap {A B} (h : A → B) (f : B → S → outcome S) l s :
  foldM f (h <$> l) s = foldM (λ a, f (h a)) l s.
Proof.
  revert s. induction l as [|a l IH]; intros s; simpl; [done|].
  destruct (f (h a) s); simpl; auto.
Qed.

Lemma foldM_bind {A B} (k : A → list B) (f : B → S → outcome S) l s :
  foldM f (l ≫= k) s = foldM (λ a, foldM f (k a)) l s.
Proof.
  revert s. induction l as [|a l IH]; intros s; simpl; [done|].
  rewrite foldM_app. destruct (foldM f (k a) s); simpl; auto.
Qed.

(** Invariant rule: [I done s] holds after the elements [done]. *)
Lemma foldM_invariant {A} (I : list A → S → Prop) (f : A → S → outcome S)
    l s :
  I [] s →
  (∀ done a rest s', l = done ++ a :: rest → I done s' →
     ∃ s'', f a s' = Ret s'' ∧ I (done ++ [a]) s'') →
  ∃ s', foldM f l s = Ret s' ∧ I l s'.
Proof.
  intros H0 Hstep.
  assert (∀ rest done s0, l = done ++ rest → I done s0 →
    ∃ s', foldM f rest s0 = Ret s' ∧ I l s') as Hgen.
  { induction rest as [|a rest IH]; intros done s0 Hl Hd; simpl.
    - rewrite app_nil_r in Hl. subst. eauto.
    - destruct (Hstep done a rest s0 Hl Hd) as (s'' & -> & Hd'). simpl.
      apply (IH (done ++ [a])); [|done]. by rewrite <- app_assoc. }
  by apply (Hgen l []).
Qed.

(** The recursion on binary digits is the loop of the source: stop when
    the scanned word is zero, skip a clear low bit, and go on with the word
    shifted right once and the index incremented. *)
Lemma for_each_set_bit_loop (body : Z → Z → S → outcome S) w index s :
  0 ≤ w →
  for_each_set_bit body w index s
  = if w =? 0 then Ret s
    else s' ← (if Z.land w 1 =? 0 then Ret s else body w index s);
         for_each_set_bit body (Z.shiftr w 1) (Cxx.to_size_t (index + 1)) s'.
Proof.
  intros Hw. destruct w as [|[w|w|]|w]; simpl; try done; try lia.
  by destruct (body 1 index s).
Qed.

Lemma scan_bits_fold (body : Z → Z → S → outcome S) w index s :
  0 ≤ index → index + Zpos w < 2 ^ 64 →
  scan_bits body w index s
  = foldM (λ p, body p.1 p.2) (set_bits w index) s.
Proof.
  revert index s. induction w as [w IH|w IH|]; intros index s H0 H; simpl.
  - destruct (body _ index s); simpl; try done.
    rewrite to_size_t_small by lia. apply IH; lia.
  - rewrite to_size_t_small by lia. apply IH; lia.
  - by destruct (body 1 index s).
Qed.

Lemma for_each_set_bit_fold (body : Z → Z → S → outcome S) w index s :
  0 ≤ index → index + w < 2 ^ 64 →
  for_each_set_bit body w index s
  = foldM (λ p, body p.1 p.2) (set_bits_of w index) s.
Proof.
  intros H0 H. destruct w; simpl; try done. by apply scan_bits_fold.
Qed.

End ScanFacts.

Section SetBitsFacts.
Local Open Scope Z_scope.

Lemma testbit_pos_succ (w : positive) (b : bool) k :
  0 ≤ k →
  Z.testbit (Zpos (if b then w~1 else w~0)%positive) (k + 1)
  = Z.testbit (Zpos w) k.
Proof.
  intros Hk. rewrite <- (Z.shiftr_spec _ 1 k Hk). by destruct b.
Qed.

Lemma shiftr_pos_succ (w : positive) (b : bool) k :
  0 ≤ k →
  Z.shiftr (Zpos (if b then w~1 else w~0)%positive) (k + 1)
  = Z.shiftr (Zpos w) k.
Proof.
  intros Hk. rewrite (Z.add_comm k 1), <- Z.shiftr_shiftr by done.
  by destruct b.
Qed.

Lemma fmap_list_bind {A B C} (f : B → C) (g : A → list B) (l : list A) :
  f <$> (l ≫= g) = l ≫= λ x, f <$> g x.
Proof.
  induction l as [|a l IH]; [done|].
  by rewrite !bind_cons, fmap_app, IH.
Qed.

Lemma set_bits_spec w index it i :
  (it, i) ∈ set_bits w index
  ↔ index ≤ i ∧ Z.testbit (Zpos w) (i - index) = true
    ∧ it = Z.shiftr (Zpos w) (i - index).
Proof.
  revert index. induction w as [w IH|w IH|]; intros index; simpl.
  - rewrite elem_of_cons, IH. split.
    + intros [[= -> ->]|(Hi & Hb & ->)].
      * by rewrite Z.sub_diag.
      * replace (i - index) with (i - (index + 1) + 1) by lia.
        rewrite (testbit_pos_succ w true), (shiftr_pos_succ w true) by lia.
        split; [lia|done].
    + intros (Hi & Hb & ->).
      destruct (decide (i = index)) as [->|Hne].
      * left. by rewrite Z.sub_diag.
      * right. replace (i - index) with (i - (index + 1) + 1) in * by lia.
        rewrite (testbit_pos_succ w true) in Hb by lia.
        rewrite (shiftr_pos_succ w true) by lia.
        split; [lia|done].
  - rewrite IH. split.
    + intros (Hi & Hb & ->).
      replace (i - index) with (i - (index + 1) + 1) by lia.
      rewrite (testbit_pos_succ w false), (shiftr_pos_succ w false) by lia.
      split; [lia|done].
    + intros (Hi & Hb & ->).
      destruct (decide (i = index)) as [->|Hne].
      * by rewrite Z.sub_diag in Hb.
      * replace (i - index) with (i - (index + 1) + 1) in * by lia.
        rewrite (testbit_pos_succ w false) in Hb by lia.
        rewrite (shiftr_pos_succ w false) by lia.
        split; [lia|done].
  - rewrite list_elem_of_singleton. split.
    + intros [= -> ->]. by rewrite Z.sub_diag.
    + intros (Hi & Hb & ->).
      destruct (decide (i = index)) as [->|Hne].
      * by rewrite Z.sub_diag.
      * replace (i - index) with (Z.succ (i - index - 1)) in Hb by lia.
        rewrite Z.bits_above_log2 in Hb; [done|lia|simpl; lia].
Qed.

Lemma set_bits_of_spec w index it i :
  0 ≤ w →
  (it, i) ∈ set_bits_of w index
  ↔ index ≤ i ∧ Z.testbit w (i - index) = true
    ∧ it = Z.shiftr w (i - index).
Proof.
  intros Hw. destruct w as [|w|w]; simpl; [|apply set_bits_spec|lia].
  rewrite elem_of_nil. split; [done|]. intros (_ & Hb & _).
  by rewrite Z.testbit_0_l in Hb.
Qed.

Lemma set_bits_NoDup w index : NoDup (set_bits w index).*2.
Proof.
  revert index. induction w as [w IH|w IH|]; intros index; simpl.
  - apply NoDup_cons. split; [|apply IH].
    intros ([it i] & Hi & Hin)%list_elem_of_fmap. simpl in Hi. subst i.
    apply set_bits_spec in Hin. lia.
  - apply IH.
  - apply NoDup_singleton.
Qed.

Lemma set_bits_of_NoDup w index : NoDup (set_bits_of w index).*2.
Proof. destruct w; simpl; try apply NoDup_nil_2. apply set_bits_NoDup. Qed.

End SetBitsFacts.

(** ** Legal crossings *)

Section FlipFacts.
Local Open Scope Z_scope.

Lemma flip1_involutive s i : 0 ≤ i → flip1 (flip1 s i) i = s.
Proof.
  intros Hi. apply Z.bits_inj'. intros k Hk.
  rewrite !testbit_flip1 by done.
  by destruct (Z.testbit s k), ((k =? 0) || (k =? i + 1)).
Qed.

Lemma flip2_involutive s i j :
  0 ≤ i → 0 ≤ j → i ≠ j → flip2 (flip2 s i j) i j = s.
Proof.
  intros Hi Hj Hij. apply Z.bits_inj'. intros k Hk.
  rewrite !testbit_flip2 by done.
  by destruct (Z.testbit s k), ((k =? 0) || (k =? i + 1) || (k =? j + 1)).
Qed.

Lemma flip1_flips_torch s i :
  0 ≤ i → torch_crossed (flip1 s i) = negb (torch_crossed s).
Proof.
  intros Hi. unfold torch_crossed. rewrite testbit_flip1 by lia.
  by destruct (Z.testbit s 0).
Qed.

Lemma flip2_flips_torch s i j :
  0 ≤ i → 0 ≤ j → i ≠ j →
  torch_crossed (flip2 s i j) = negb (torch_crossed s).
Proof.
  intros Hi Hj Hij. unfold torch_crossed. rewrite testbit_flip2 by lia.
  by destruct (Z.testbit s 0).
Qed.

Lemma flip1_neq s i : 0 ≤ i → flip1 s i ≠ s.
Proof.
  intros Hi Heq. pose proof (flip1_flips_torch s i Hi) as H.
  rewrite Heq in H. by destruct (torch_crossed s).
Qed.

Lemma flip2_neq s i j : 0 ≤ i → 0 ≤ j → i ≠ j → flip2 s i j ≠ s.
Proof.
  intros Hi Hj Hij Heq. pose proof (flip2_flips_torch s i j Hi Hj Hij) as H.
  rewrite Heq in H. by destruct (torch_crossed s).
Qed.

Lemma eligible_lt n s i : eligible n s i = true → i < n.
Proof. unfold eligible. intros [H _]%andb_true_iff. by apply Z.ltb_lt. Qed.

Lemma eligible_flip1 n s i :
  0 ≤ i → eligible n s i = true → eligible n (flip1 s i) i = true.
Proof.
  unfold eligible, person_crossed. intros Hi [-> H]%andb_true_iff. simpl.
  rewrite flip1_flips_torch by done. rewrite testbit_flip1 by lia.
  rewrite Z.eqb_refl, orb_true_r. apply Bool.eqb_prop in H. rewrite H.
  by destruct (torch_crossed s).
Qed.

Lemma eligible_flip2 n s i j k :
  0 ≤ i → 0 ≤ j → i ≠ j → k = i ∨ k = j →
  eligible n s k = true → eligible n (flip2 s i j) k = true.
Proof.
  unfold eligible, person_crossed. intros Hi Hj Hij Hk [-> H]%andb_true_iff.
  simpl. rewrite flip2_flips_torch by done. rewrite testbit_flip2 by lia.
  apply Bool.eqb_prop in H. rewrite H.
  assert ((k + 1 =? 0) || (k + 1 =? i + 1) || (k + 1 =? j + 1) = true) as ->.
  { destruct Hk as [->| ->]; rewrite Z.eqb_refl;
      by rewrite ?orb_true_r. }
  by destruct (torch_crossed s).
Qed.

(** Which bits differ between a word and its flips. *)
Lemma flip_cancel (a b c : bool) : xorb a b = xorb a c → b = c.
Proof. by destruct a, b, c. Qed.

Lemma flip1_inj s i i' : 0 ≤ i → 0 ≤ i' → flip1 s i = flip1 s i' → i = i'.
Proof.
  intros Hi Hi' Heq.
  assert (Z.testbit (flip1 s i) (i + 1) = Z.testbit (flip1 s i') (i + 1)) as H
    by by rewrite Heq.
  rewrite !testbit_flip1 in H by lia. apply flip_cancel in H.
  rewrite Z.eqb_refl, orb_true_r in H. symmetry in H.
  apply orb_true_iff in H as [H|H]; apply Z.eqb_eq in H; lia.
Qed.

Lemma flip2_bit s i j i' j' k :
  0 ≤ i → 0 ≤ j → i ≠ j → 0 ≤ i' → 0 ≤ j' → i' ≠ j' → 0 ≤ k →
  flip2 s i j = flip2 s i' j' →
  k = i' ∨ k = j' → k = i ∨ k = j.
Proof.
  intros Hi Hj Hij Hi' Hj' Hij' Hk Heq Hor.
  assert (Z.testbit (flip2 s i j) (k + 1) = Z.testbit (flip2 s i' j') (k + 1))
    as H by by rewrite Heq.
  rewrite !testbit_flip2 in H by lia. apply flip_cancel in H.
  assert ((k + 1 =? 0) || (k + 1 =? i' + 1) || (k + 1 =? j' + 1) = true) as Ht.
  { destruct Hor as [->| ->]; rewrite Z.eqb_refl; by rewrite ?orb_true_r. }
  rewrite Ht in H.
  apply orb_true_iff in H as [H|H]; [apply orb_true_iff in H as [H|H]|];
    apply Z.eqb_eq in H; lia.
Qed.

Lemma flip2_inj s i j i' j' :
  0 ≤ i < j → 0 ≤ i' < j' → flip2 s i j = flip2 s i' j' → i = i' ∧ j = j'.
Proof.
  intros Hij Hij' Heq.
  pose proof (flip2_bit s i j i' j' i' ltac:(lia) ltac:(lia) ltac:(lia)
    ltac:(lia) ltac:(lia) ltac:(lia) ltac:(lia) Heq ltac:(lia)).
  pose proof (flip2_bit s i j i' j' j' ltac:(lia) ltac:(lia) ltac:(lia)
    ltac:(lia) ltac:(lia) ltac:(lia) ltac:(lia) Heq ltac:(lia)).
  symmetry in Heq.
  pose proof (flip2_bit s i' j' i j i ltac:(lia) ltac:(lia) ltac:(lia)
    ltac:(lia) ltac:(lia) ltac:(lia) ltac:(lia) Heq ltac:(lia)).
  pose proof (flip2_bit s i' j' i j j ltac:(lia) ltac:(lia) ltac:(lia)
    ltac:(lia) ltac:(lia) ltac:(lia) ltac:(lia) Heq ltac:(lia)).
  lia.
Qed.

Lemma flip1_flip2_neq s i i' j' :
  0 ≤ i → 0 ≤ i' < j' → flip1 s i ≠ flip2 s i' j'.
Proof.
  intros Hi Hij' Heq.
  assert (∀ k, 0 ≤ k → k = i' ∨ k = j' → k = i) as H.
  { intros k Hk Hor.
    assert (Z.testbit (flip1 s i) (k + 1) = Z.testbit (flip2 s i' j') (k + 1))
      as H by by rewrite Heq.
    rewrite testbit_flip1, testbit_flip2 in H by lia. apply flip_cancel in H.
    assert ((k + 1 =? 0) || (k + 1 =? i' + 1) || (k + 1 =? j' + 1) = true)
      as Ht.
    { destruct Hor as [->| ->]; rewrite Z.eqb_refl; by rewrite ?orb_true_r. }
    rewrite Ht in H.
    apply orb_true_iff in H as [H|H]; apply Z.eqb_eq in H; lia. }
  pose proof (H i' ltac:(lia) ltac:(lia)).
  pose proof (H j' ltac:(lia) ltac:(lia)). lia.
Qed.

End FlipFacts.

Section Moves.
Local Open Scope Z_scope.
Variable times_to_cross : list Z.
Abbreviation n := (people_count times_to_cross).
Abbreviation time_of := (time_of times_to_cross).
Abbreviation crossing := (crossing times_to_cross).
Abbreviation single_moves := (single_moves times_to_cross).
Abbreviation double_moves := (double_moves times_to_cross).
Abbreviation moves := (moves times_to_cross).

Lemma vector_at_time i :
  0 ≤ i < n → vector_at times_to_cross (Z.to_nat i) = Ret (time_of i).
Proof.
  intros Hi. unfold vector_at, time_of, people_count in *.
  destruct (times_to_cross !! Z.to_nat i) eqn:E; [done|].
  apply lookup_ge_None in E. lia.
Qed.

Lemma crossing_neq s r t : crossing s r t → r ≠ s.
Proof.
  intros [i Hi _|i j Hij _ _]; [by apply flip1_neq|apply flip2_neq; lia].
Qed.

Lemma crossing_configuration s r t :
  is_configuration n s → crossing s r t → is_configuration n r.
Proof.
  intros Hs [i Hi He|i j Hij Hei Hej].
  - apply configuration_flip1; [done|]. apply eligible_lt in He. lia.
  - apply eligible_lt in Hei, Hej. apply configuration_flip2; [done|lia|lia].
Qed.

Lemma crossing_sym s r t : crossing s r t → crossing r s t.
Proof.
  intros [i Hi He|i j Hij Hei Hej].
  - rewrite <- (flip1_involutive s i) at 2 by done.
    apply crossing_single; [done|]. by apply eligible_flip1.
  - rewrite <- (flip2_involutive s i j) at 2 by lia.
    apply crossing_double; [done| |]; apply eligible_flip2; auto; lia.
Qed.

Section Mask.
Variables m s : Z.
Hypothesis m_nonneg : 0 ≤ m.
Hypothesis m_bits : ∀ i, 0 ≤ i → Z.testbit m i = eligible n s i.

Lemma single_bit_spec it i :
  (it, i) ∈ set_bits_of m 0
  ↔ 0 ≤ i ∧ eligible n s i = true ∧ it = Z.shiftr m i.
Proof.
  rewrite set_bits_of_spec by done. rewrite Z.sub_0_r.
  split; intros (Hi & Hb & Hit); (split; [done|]); (split; [|done]).
  - by rewrite <- m_bits.
  - by rewrite m_bits.
Qed.

Lemma second_bit_spec i it j :
  0 ≤ i →
  (it, j) ∈ set_bits_of (Z.shiftr (Z.shiftr m i) 1) (i + 1)
  ↔ i < j ∧ eligible n s j = true ∧ it = Z.shiftr m j.
Proof.
  intros Hi. rewrite Z.shiftr_shiftr by lia.
  rewrite set_bits_of_spec by (apply Z.shiftr_nonneg; lia).
  split.
  - intros (Hj & Hb & ->). rewrite Z.shiftr_spec in Hb by lia.
    rewrite Z.shiftr_shiftr by lia.
    replace (j - (i + 1) + (i + 1)) with j in Hb by lia.
    replace (i + 1 + (j - (i + 1))) with j by lia.
    rewrite m_bits in Hb by lia. split; [lia|done].
  - intros (Hj & Hb & ->). rewrite Z.shiftr_spec by lia.
    rewrite Z.shiftr_shiftr by lia.
    replace (j - (i + 1) + (i + 1)) with j by lia.
    replace (i + 1 + (j - (i + 1))) with j by lia.
    rewrite m_bits by lia. split; [lia|done].
Qed.

Lemma moves_crossing r t : (r, t) ∈ moves m s ↔ crossing s r t.
Proof.
  unfold moves, single_moves, double_moves.
  rewrite elem_of_app, list_elem_of_fmap, list_elem_of_bind. split.
  - intros [([it i] & [= -> ->] & Hin)|([it i] & Hin2 & Hin)]; simpl in *.
    + apply single_bit_spec in Hin as (Hi & He & _). by constructor.
    + apply single_bit_spec in Hin as (Hi & He & ->).
      apply list_elem_of_fmap in Hin2 as ([it j] & [= -> ->] & Hin2).
      simpl in *. apply second_bit_spec in Hin2 as (Hj & Hej & _); [|done].
      constructor; [lia|done|done].
  - intros [i Hi He|i j Hij Hei Hej].
    + left. exists (Z.shiftr m i, i). split; [done|].
      by apply single_bit_spec.
    + right. exists (Z.shiftr m i, i). split.
      * apply list_elem_of_fmap. exists (Z.shiftr m j, j). split; [done|].
        simpl. apply second_bit_spec; [lia|]. split; [lia|done].
      * apply single_bit_spec. split; [lia|done].
Qed.

Lemma moves_NoDup : NoDup (moves m s).*1.
Proof.
  unfold moves. rewrite fmap_app. apply NoDup_app. split; [|split].
  - unfold single_moves. rewrite <- list_fmap_compose.
    apply NoDup_fmap_2_strong.
    + intros [it i] [it' i'] Hin Hin' Heq. simpl in Heq.
      apply single_bit_spec in Hin as (Hi & _ & ->).
      apply single_bit_spec in Hin' as (Hi' & _ & ->).
      by rewrite (flip1_inj s i i' Hi Hi' Heq).
    + apply (NoDup_fmap_1 snd), set_bits_of_NoDup.
  - intros r ((r1 & t1) & -> & H1)%list_elem_of_fmap
      ((r2 & t2) & Heq & H2)%list_elem_of_fmap. simpl in Heq. subst r2.
    assert (crossing s r1 t1) as Hc1
      by (apply moves_crossing, elem_of_app; by left).
    assert (crossing s r1 t2) as Hc2
      by (apply moves_crossing, elem_of_app; by right).
    unfold single_moves in H1. apply list_elem_of_fmap in H1
      as ([it i] & [= -> ->] & (Hi & _ & _)%single_bit_spec).
    unfold double_moves in H2. apply list_elem_of_bind in H2
      as ([it' i'] & Hin2 & (Hi' & _ & ->)%single_bit_spec).
    apply list_elem_of_fmap in Hin2 as ([it2 j'] & [= Heq _] & Hin2).
    simpl in *. apply second_bit_spec in Hin2 as (Hj' & _ & _); [|done].
    by apply flip1_flip2_neq in Heq; [|lia|lia].
  - unfold double_moves. rewrite fmap_list_bind. apply NoDup_bind.
    + intros [it1 i1] [it2 i2] r (Hi1 & _ & ->)%single_bit_spec
        (Hi2 & _ & ->)%single_bit_spec Hr1 Hr2.
      rewrite <- list_fmap_compose in Hr1, Hr2.
      apply list_elem_of_fmap in Hr1 as ([? j1] & -> & Hr1).
      apply list_elem_of_fmap in Hr2 as ([? j2] & He & Hr2). simpl in *.
      apply second_bit_spec in Hr1 as (Hj1 & _ & _); [|done].
      apply second_bit_spec in Hr2 as (Hj2 & _ & _); [|done].
      apply flip2_inj in He as [-> _]; [done|lia|lia].
    + intros [it i] (Hi & _ & ->)%single_bit_spec.
      rewrite <- list_fmap_compose. apply NoDup_fmap_2_strong.
      * intros [it1 j1] [it2 j2] Hin1 Hin2 He. simpl in *.
        apply second_bit_spec in Hin1 as (Hj1 & _ & ->); [|done].
        apply second_bit_spec in Hin2 as (Hj2 & _ & ->); [|done].
        apply flip2_inj in He as [_ ->]; [done|lia|lia].
      * apply (NoDup_fmap_1 snd), set_bits_of_NoDup.
    + apply (NoDup_fmap_1 snd), set_bits_of_NoDup.
Qed.

End Mask.
End Moves.

(** ** One turn of the outer loop as a fold over the legal crossings *)

Section ProcessState.
Local Open Scope Z_scope.
Variable times_to_cross : list Z.
Abbreviation n := (people_count times_to_cross).

Lemma single_crossing_step_ok curr nd it i b :
  is_configuration n (state_repr nd) →
  0 ≤ i → eligible n (state_repr nd) i = true →
  single_crossing_step times_to_cross curr nd it i b
  = try_add_or_connect_crossed_state b curr
      (with_repr (flip1 (state_repr nd) i)) (time_of times_to_cross i).
Proof.
  intros Hc Hi He. apply eligible_lt in He. unfold single_crossing_step.
  rewrite (proj2 (Z.ltb_lt i n)) by done. simpl.
  rewrite (after_single_crossing_ok n) by (done || lia). simpl.
  rewrite vector_at_time by lia. done.
Qed.

Lemma second_crosser_step_ok curr nd i it j b :
  is_configuration n (state_repr nd) →
  0 ≤ i < j →
  eligible n (state_repr nd) i = true → eligible n (state_repr nd) j = true →
  second_crosser_step times_to_cross curr nd i it j b
  = try_add_or_connect_crossed_state b curr
      (with_repr (flip2 (state_repr nd) i j))
      (Z.max (time_of times_to_cross i) (time_of times_to_cross j)).
Proof.
  intros Hc Hij Hei Hej. apply eligible_lt in Hei, Hej.
  unfold second_crosser_step.
  rewrite (proj2 (Z.ltb_lt j n)) by done. simpl.
  rewrite (after_double_crossing_ok n) by (done || lia). simpl.
  rewrite !vector_at_time by lia. done.
Qed.

Lemma process_state_moves curr b nd :
  states b !! curr = Some nd →
  is_configuration n (state_repr nd) →
  ∃ m, 0 ≤ m
    ∧ (∀ i, 0 ≤ i → Z.testbit m i = eligible n (state_repr nd) i)
    ∧ process_state times_to_cross curr b
      = foldM (λ mv b', try_add_or_connect_crossed_state b' curr
                          (with_repr mv.1) mv.2)
          (moves times_to_cross m (state_repr nd)) b.
Proof.
  intros Hnd Hc.
  destruct (get_possible_crosser_indices_ok n nd Hc) as (m & Hm & Hr & Hb).
  exists m. split; [lia|]. split; [done|].
  assert (1 ≤ n ≤ 30) as Hn by (destruct Hc as [Hn _]; by rewrite max_people_eq in Hn).
  assert (m < 2 ^ 30) as Hm30 by (pose proof (pow2_le_mono n 30); lia).
  unfold process_state, vector_at. rewrite Hnd. simpl. rewrite Hm. simpl.
  unfold moves. rewrite foldM_app.
  rewrite !for_each_set_bit_fold by lia.
  unfold single_moves. rewrite foldM_fmap.
  rewrite (foldM_ext _
    (λ a b', try_add_or_connect_crossed_state b' curr
               (with_repr (flip1 (state_repr nd) a.2))
               (time_of times_to_cross a.2))); last first.
  { intros [it i] b' Hin.
    apply (single_bit_spec times_to_cross m (state_repr nd)) in Hin
      as (Hi & He & _); [|lia|done].
    by apply single_crossing_step_ok. }
  destruct (foldM _ (set_bits_of m 0) b) as [b1| | | |]; simpl; try done.
  unfold double_moves. rewrite foldM_bind.
  rewrite for_each_set_bit_fold by lia. apply foldM_ext.
  intros [it i] b' Hin.
  apply (single_bit_spec times_to_cross m (state_repr nd)) in Hin
    as (Hi & He & ->); [|lia|done].
  simpl. unfold first_crosser_step.
  pose proof (eligible_lt _ _ _ He) as Hlt.
  rewrite (proj2 (Z.ltb_lt i n)) by done. simpl.
  rewrite to_size_t_small by lia.
  assert (0 ≤ Z.shiftr m i ≤ m) as Hsh.
  { split; [apply Z.shiftr_nonneg; lia|].
    rewrite Z.shiftr_div_pow2 by done.
    apply Z.div_le_upper_bound; [by apply pow2_pos|].
    pose proof (pow2_pos i Hi). nia. }
  assert (0 ≤ Z.shiftr (Z.shiftr m i) 1 ≤ m) as Hsh1.
  { split; [apply Z.shiftr_nonneg; lia|].
    rewrite (Z.shiftr_div_pow2 _ 1) by lia. change (2 ^ 1) with 2.
    pose proof (Z.div_le_upper_bound (Z.shiftr m i) 2 m). lia. }
  rewrite for_each_set_bit_fold by lia.
  rewrite foldM_fmap. apply foldM_ext.
  intros [it2 j] b'' Hin.
  apply (second_bit_spec times_to_cross m (state_repr nd)) in Hin
    as (Hj & Hej & _); [|lia|done|done].
  simpl. apply second_crosser_step_ok; (done || lia).
Qed.

End ProcessState.

(** ** The graph held by the node list *)

Section GraphFacts.
Implicit Types sts : list bridge_state_type.

Lemma node_repr_lt sts i r : node_repr sts i = Some r → i < length sts.
Proof.
  unfold node_repr. intros H. apply fmap_Some in H as (nd & H & _).
  by apply lookup_lt_Some in H.
Qed.

Lemma node_repr_is_Some sts i : i < length sts → is_Some (node_repr sts i).
Proof.
  intros H. apply lookup_lt_is_Some_2 in H as [nd H].
  unfold node_repr. rewrite H. by eexists.
Qed.

Lemma node_repr_snoc sts nd i :
  node_repr (sts ++ [nd]) i
  = if decide (i = length sts) then Some (state_repr nd) else node_repr sts i.
Proof.
  unfold node_repr. case_decide as Hi.
  - subst. rewrite lookup_app_r by lia. by rewrite Nat.sub_diag.
  - destruct (decide (i < length sts)).
    + by rewrite lookup_app_l.
    + rewrite !lookup_ge_None_2; [done|lia|rewrite length_app; simpl; lia].
Qed.

Lemma crossings_at_ge sts i : length sts ≤ i → crossings_at sts i = [].
Proof. intros H. unfold crossings_at. by rewrite lookup_ge_None_2. Qed.

Lemma crossings_at_snoc sts r i :
  crossings_at (sts ++ [with_repr r]) i = crossings_at sts i.
Proof.
  unfold crossings_at. destruct (decide (i < length sts)).
  - by rewrite lookup_app_l.
  - rewrite (lookup_ge_None_2 sts) by lia. rewrite lookup_app_r by lia.
    by destruct (i - length sts) as [|[|k]].
Qed.

Lemma edge_lt sts u v t : edge sts u v t → u < length sts.
Proof.
  unfold edge. intros H. destruct (decide (u < length sts)); [done|].
  rewrite crossings_at_ge in H by lia. by apply elem_of_nil in H.
Qed.

Lemma add_crossing_ok sts i c :
  i < length sts →
  ∃ sts', add_crossing sts i c = Ret sts'
    ∧ length sts' = length sts
    ∧ (∀ j, node_repr sts' j = node_repr sts j)
    ∧ (∀ j, crossings_at sts' j
            = crossings_at sts j ++ if decide (j = i) then [c] else []).
Proof.
  intros Hi. destruct (lookup_lt_is_Some_2 _ _ Hi) as [nd Hnd].
  unfold add_crossing, vector_at. rewrite Hnd. simpl.
  eexists. split; [done|]. split; [by rewrite length_insert|]. split.
  - intros j. unfold node_repr. destruct (decide (i = j)) as [->|Hne].
    + rewrite list_lookup_insert_eq by done. by rewrite Hnd.
    + by rewrite list_lookup_insert_ne.
  - intros j. unfold crossings_at. case_decide as Hj.
    + subst. rewrite list_lookup_insert_eq by done. by rewrite Hnd.
    + rewrite list_lookup_insert_ne by done. by rewrite app_nil_r.
Qed.

Lemma connect_ok b u v t :
  u ≠ v → u < length (states b) → v < length (states b) →
  ∃ sts', connect b u v t
          = Ret {| states := sts';
                   state_to_states_index := state_to_states_index b;
                   connection_count := S (connection_count b) |}
    ∧ length sts' = length (states b)
    ∧ (∀ j, node_repr sts' j = node_repr (states b) j)
    ∧ (∀ j, crossings_at sts' j
            = crossings_at (states b) j ++ linked u v t j).
Proof.
  intros Huv Hu Hv. unfold connect.
  destruct (add_crossing_ok (states b) u
    {| state_index_after_crossing := v; time_to_cross := t |} Hu)
    as (sts1 & -> & Hl1 & Hr1 & Hc1). simpl.
  destruct (add_crossing_ok sts1 v
    {| state_index_after_crossing := u; time_to_cross := t |})
    as (sts2 & -> & Hl2 & Hr2 & Hc2); [lia|]. simpl.
  eexists. split; [done|]. split; [lia|]. split.
  - intros j. by rewrite Hr2, Hr1.
  - intros j. rewrite Hc2, Hc1, <- app_assoc. f_equal. unfold linked.
    repeat case_decide; subst; done.
Qed.

End GraphFacts.

(** ** The invariant of the construction *)

Section Invariant.
Local Open Scope Z_scope.
Variable times_to_cross : list Z.
Abbreviation n := (people_count times_to_cross).
Abbreviation inv := (inv times_to_cross).
Abbreviation inv_map := (inv_map times_to_cross).
Abbreviation inv_conf := (inv_conf times_to_cross).
Abbreviation inv_sym := (inv_sym times_to_cross).
Abbreviation inv_legal := (inv_legal times_to_cross).
Abbreviation inv_order := (inv_order times_to_cross).
Abbreviation inv_complete := (inv_complete times_to_cross).
Abbreviation inv_nodup := (inv_nodup times_to_cross).
Abbreviation enough_fuel := (enough_fuel times_to_cross).

Lemma elem_of_linked u v t i y t' :
  u ≠ v →
  {| state_index_after_crossing := y; time_to_cross := t' |}
    ∈ linked u v t i
  ↔ (i = v ∧ y = u ∧ t' = t) ∨ (i = u ∧ y = v ∧ t' = t).
Proof.
  intros Huv. unfold linked. split.
  - intros H. repeat case_decide; subst;
      try (apply list_elem_of_singleton in H; injection H as -> ->);
      try (by apply elem_of_nil in H); auto.
  - intros [(-> & -> & ->)|(-> & -> & ->)].
    + rewrite decide_True by done. by apply list_elem_of_singleton.
    + rewrite decide_False, decide_True by done.
      by apply list_elem_of_singleton.
Qed.

Lemma elem_of_targets sts u x :
  x ∈ state_index_after_crossing <$> crossings_at sts u
  ↔ ∃ t, edge sts u x t.
Proof.
  unfold edge. rewrite list_elem_of_fmap. split.
  - intros ([y t] & -> & H). simpl. by exists t.
  - intros [t H]. by eexists {| time_to_cross := t |}.
Qed.

Lemma inv_repr_inj curr done b i j r :
  inv curr done b →
  node_repr (states b) i = Some r → node_repr (states b) j = Some r → i = j.
Proof.
  intros Hinv Hi Hj. apply (inv_map _ _ _ Hinv) in Hi, Hj. congruence.
Qed.

(** A fresh configuration is appended. *)
Lemma inv_snoc curr done b r :
  inv curr done b →
  (curr < length (states b))%nat →
  state_to_states_index b !! r = None →
  is_configuration n r →
  inv curr done
    {| states := states b ++ [with_repr r];
       state_to_states_index :=
         <[r := length (states b)]> (state_to_states_index b);
       connection_count := connection_count b |}.
Proof.
  intros Hinv Hcurr Hfresh Hr.
  assert (∀ i x, node_repr (states b) i = Some x →
    node_repr (states b ++ [with_repr r]) i = Some x) as Hold.
  { intros i x H. rewrite node_repr_snoc. case_decide; [|done].
    apply node_repr_lt in H. lia. }
  split; simpl.
  - intros r' i. rewrite node_repr_snoc. rewrite lookup_insert.
    destruct (decide (r = r')) as [<-|Hne];
      destruct (decide (i = length (states b))) as [->|Hi]; simpl.
    + done.
    + split; [intros [= ?]; lia|].
      intros H%(inv_map _ _ _ Hinv). congruence.
    + split; [|congruence]. intros H%(inv_map _ _ _ Hinv).
      apply node_repr_lt in H. lia.
    + apply (inv_map _ _ _ Hinv).
  - intros i r'. rewrite node_repr_snoc. case_decide.
    + by intros [= <-].
    + apply (inv_conf _ _ _ Hinv).
  - intros u v t. unfold edge. rewrite !crossings_at_snoc.
    apply (inv_sym _ _ _ Hinv).
  - intros u v t. unfold edge. rewrite !crossings_at_snoc. intros H.
    destruct (inv_legal _ _ _ Hinv u v t H) as (ru & rv & Hu & Hv & Hc).
    exists ru, rv. auto.
  - intros u v t. unfold edge. rewrite !crossings_at_snoc. intros H Huv.
    destruct (inv_order _ _ _ Hinv u v t H Huv) as [?|[-> (rv & Hv & Hd)]];
      [by left|]. right. split; [done|]. exists rv. auto.
  - intros u ru r' t Hu Hcase.
    assert (node_repr (states b) u = Some ru) as Hu'.
    { rewrite node_repr_snoc in Hu. case_decide as Hul; [|done]. subst u.
      destruct Hcase as [[Hlt _]|[Hlt _]]; lia. }
    destruct (inv_complete _ _ _ Hinv u ru r' t Hu' Hcase) as (v & Hv & He).
    exists v. split; [auto|]. unfold edge. by rewrite crossings_at_snoc.
  - intros u. rewrite crossings_at_snoc. apply (inv_nodup _ _ _ Hinv).
Qed.

(** The current node is linked to a node behind it. *)
Lemma inv_link curr done b v s r t :
  inv curr done b →
  node_repr (states b) curr = Some s →
  node_repr (states b) v = Some r →
  (curr < v)%nat →
  crossing times_to_cross s r t →
  r ∉ done.*1 →
  ∃ b', connect b curr v t = Ret b'
    ∧ inv curr (done ++ [(r, t)]) b'
    ∧ length (states b') = length (states b)
    ∧ ∀ i, node_repr (states b') i = node_repr (states b) i.
Proof.
  intros Hinv Hs Hr Hlt Hc Hnew.
  destruct (connect_ok b curr v t) as (sts' & -> & Hlen & Hrepr & Hcross);
    [lia|by eapply node_repr_lt|by eapply node_repr_lt|].
  eexists. split; [done|]. simpl. split; [|done].
  assert (∀ x y t', edge sts' x y t'
    ↔ edge (states b) x y t'
      ∨ (x = v ∧ y = curr ∧ t' = t) ∨ (x = curr ∧ y = v ∧ t' = t)) as Hedge.
  { intros x y t'. unfold edge. rewrite Hcross, elem_of_app.
    rewrite elem_of_linked by lia. done. }
  assert (∀ t', ¬ edge (states b) curr v t') as Hno.
  { intros t' He.
    destruct (inv_order _ _ _ Hinv _ _ _ He Hlt) as [?|(_ & rv & Hrv & Hd)];
      [lia|]. congruence. }
  split; simpl.
  - intros r' i. rewrite Hrepr. apply (inv_map _ _ _ Hinv).
  - intros i r'. rewrite Hrepr. apply (inv_conf _ _ _ Hinv).
  - intros x y t'. rewrite !Hedge.
    intros [He|[(-> & -> & ->)|(-> & -> & ->)]]; auto.
    left. by apply (inv_sym _ _ _ Hinv).
  - intros x y t'. rewrite Hedge, !Hrepr.
    intros [He|[(-> & -> & ->)|(-> & -> & ->)]].
    + by apply (inv_legal _ _ _ Hinv).
    + exists r, s. split; [done|]. split; [done|]. by apply crossing_sym.
    + exists s, r. done.
  - intros x y t'. rewrite Hedge. setoid_rewrite Hrepr.
    rewrite fmap_app. setoid_rewrite elem_of_app.
    intros [He|[(-> & -> & ->)|(-> & -> & ->)]] Hxy.
    + destruct (inv_order _ _ _ Hinv _ _ _ He Hxy)
        as [?|(-> & rv & Hrv & Hd)]; [by left|].
      right. split; [done|]. exists rv. auto.
    + lia.
    + right. split; [done|]. exists r. split; [done|]. right.
      by apply list_elem_of_singleton.
  - intros u ru r' t'. rewrite Hrepr. setoid_rewrite Hrepr.
    setoid_rewrite Hedge. rewrite elem_of_app, list_elem_of_singleton.
    intros Hu [Hcase|[-> [Hd|[= -> ->]]]].
    + destruct (inv_complete _ _ _ Hinv u ru r' t' Hu (or_introl Hcase))
        as (w & Hw & He). exists w. auto.
    + destruct (inv_complete _ _ _ Hinv curr ru r' t' Hu
        (or_intror (conj eq_refl Hd))) as (w & Hw & He). exists w. auto.
    + exists v. split; [done|]. right. right. done.
  - intros u. rewrite Hcross, fmap_app. apply NoDup_app.
    split; [apply (inv_nodup _ _ _ Hinv)|]. split.
    + intros x [t1 H1]%elem_of_targets [[y t2] [Hy H2]]%list_elem_of_fmap.
      simpl in Hy. subst y. apply elem_of_linked in H2; [|lia].
      destruct H2 as [(-> & -> & _)|(-> & -> & _)].
      * by apply (Hno t1), (inv_sym _ _ _ Hinv).
      * by apply (Hno t1).
    + unfold linked. repeat case_decide; simpl;
        try apply NoDup_singleton; apply NoDup_nil_2.
Qed.

(** The crossed configuration is a node at or before the current one. *)
Lemma inv_skip curr done b v s r t :
  inv curr done b →
  node_repr (states b) curr = Some s →
  node_repr (states b) v = Some r →
  (v ≤ curr)%nat →
  crossing times_to_cross s r t →
  inv curr (done ++ [(r, t)]) b.
Proof.
  intros Hinv Hs Hr Hle Hc.
  assert (v ≠ curr) as Hne.
  { intros ->. apply crossing_neq in Hc. congruence. }
  split; try apply Hinv.
  - intros x y t' He Hxy.
    destruct (inv_order _ _ _ Hinv _ _ _ He Hxy)
      as [?|(-> & rv & Hrv & Hd)]; [by left|].
    right. split; [done|]. exists rv. split; [done|].
    rewrite fmap_app, elem_of_app. by left.
  - intros u ru r' t'. rewrite elem_of_app, list_elem_of_singleton.
    intros Hu [Hcase|[-> [Hd|[= -> ->]]]].
    + by apply (inv_complete _ _ _ Hinv u ru r' t' Hu (or_introl Hcase)).
    + by apply (inv_complete _ _ _ Hinv curr ru r' t' Hu
        (or_intror (conj eq_refl Hd))).
    + assert (ru = s) as -> by congruence.
      destruct (inv_complete _ _ _ Hinv v r s t Hr) as (w & Hw & He).
      { left. split; [lia|]. by apply crossing_sym. }
      assert (w = curr) as -> by by eapply inv_repr_inj.
      exists v. split; [done|]. by apply (inv_sym _ _ _ Hinv).
Qed.

(** [try_add_or_connect_crossed_state] keeps the invariant. *)
Lemma try_add_inv curr done b s r t :
  inv curr done b →
  node_repr (states b) curr = Some s →
  crossing times_to_cross s r t →
  r ∉ done.*1 →
  ∃ b', try_add_or_connect_crossed_state b curr (with_repr r) t = Ret b'
    ∧ inv curr (done ++ [(r, t)]) b'
    ∧ (length (states b) ≤ length (states b'))%nat
    ∧ ∀ i x, node_repr (states b) i = Some x →
             node_repr (states b') i = Some x.
Proof.
  intros Hinv Hs Hc Hnew. unfold try_add_or_connect_crossed_state. simpl.
  pose proof (node_repr_lt _ _ _ Hs) as Hcurr.
  destruct (state_to_states_index b !! r) as [v|] eqn:Hm.
  - apply (inv_map _ _ _ Hinv) in Hm.
    destruct (Nat.ltb_spec curr v) as [Hlt|Hge].
    + destruct (inv_link curr done b v s r t) as (b' & -> & Hinv' & Hl & Hr');
        try done.
      exists b'. split; [done|]. split; [done|]. split; [lia|].
      intros i x. by rewrite Hr'.
    + exists b. split; [done|]. split; [by eapply inv_skip|]. auto.
  - pose proof (inv_snoc curr done b r Hinv Hcurr Hm
      (crossing_configuration _ _ _ _ (inv_conf _ _ _ Hinv _ _ Hs) Hc))
      as Hinv1.
    set (b1 := {| states := states b ++ [with_repr r];
                  state_to_states_index :=
                    <[r:=length (states b)]> (state_to_states_index b);
                  connection_count := connection_count b |}) in *.
    assert (∀ i x, node_repr (states b) i = Some x →
      node_repr (states b1) i = Some x) as Hold.
    { intros i x H. simpl. rewrite node_repr_snoc. case_decide; [|done].
      apply node_repr_lt in H. lia. }
    destruct (inv_link curr done b1 (length (states b)) s r t)
      as (b' & -> & Hinv' & Hl & Hr'); try done.
    + by apply Hold.
    + simpl. rewrite node_repr_snoc. by rewrite decide_True.
    + exists b'. split; [done|]. split; [done|]. split.
      * rewrite Hl. simpl. rewrite length_app. lia.
      * intros i x H. rewrite Hr'. by apply Hold.
Qed.

(** One turn of the outer loop moves the invariant to the next node. *)
Lemma process_state_inv curr b :
  inv curr [] b → (curr < length (states b))%nat →
  ∃ b', process_state times_to_cross curr b = Ret b'
    ∧ inv (S curr) [] b'
    ∧ (length (states b) ≤ length (states b'))%nat.
Proof.
  intros Hinv Hcurr.
  destruct (lookup_lt_is_Some_2 _ _ Hcurr) as [nd Hnd].
  assert (node_repr (states b) curr = Some (state_repr nd)) as Hs
    by (unfold node_repr; by rewrite Hnd).
  pose proof (inv_conf _ _ _ Hinv _ _ Hs) as Hconf.
  destruct (process_state_moves times_to_cross curr b nd Hnd Hconf)
    as (m & Hm & Hbits & ->).
  pose proof (moves_NoDup times_to_cross m (state_repr nd) Hm Hbits) as Hnd'.
  pose proof (moves_crossing times_to_cross m (state_repr nd) Hm Hbits) as Hmc.
  destruct (foldM_invariant
    (λ done b', inv curr done b'
                ∧ node_repr (states b') curr = Some (state_repr nd)
                ∧ (length (states b) ≤ length (states b'))%nat)
    (λ mv b', try_add_or_connect_crossed_state b' curr (with_repr mv.1) mv.2)
    (moves times_to_cross m (state_repr nd)) b) as (b' & -> & Hinv' & Hs' & Hl).
  { done. }
  { intros done [r t] rest b0 Hsplit (Hinv0 & Hs0 & Hl0). simpl.
    destruct (try_add_inv curr done b0 (state_repr nd) r t)
      as (b1 & -> & Hinv1 & Hl1 & Hr1); try done.
    - apply Hmc. rewrite Hsplit, elem_of_app. right. left.
    - rewrite Hsplit, fmap_app in Hnd'. apply NoDup_app in Hnd' as (_ & Hd & _).
      intros Hin. apply (Hd r Hin). left.
    - exists b1. split; [done|]. split; [done|]. split; [auto|lia]. }
  exists b'. split; [done|]. split; [|done]. split; try apply Hinv'.
  - intros u v t He Huv. left.
    destruct (inv_order _ _ _ Hinv' _ _ _ He Huv) as [?|[-> _]]; lia.
  - intros u ru r t Hu [[Hlt Hc]|[_ Hd]]; [|by apply elem_of_nil in Hd].
    apply (inv_complete _ _ _ Hinv' u ru r t Hu).
    destruct (decide (u = curr)) as [->|Hne]; [right|left; split; [lia|done]].
    split; [done|]. apply Hmc. congruence.
Qed.

(** The node list is never longer than the number of configurations. *)
Lemma inv_length curr done b :
  0 ≤ n → inv curr done b →
  (length (states b) ≤ Z.to_nat (2 ^ (n + 1)))%nat.
Proof.
  intros Hn Hinv.
  rewrite <- (length_fmap state_repr),
    <- (length_seqZ (2 ^ (n + 1)) (2 ^ (n + 1))).
  apply submseteq_length, NoDup_submseteq.
  - apply NoDup_alt. intros i j r. rewrite !list_lookup_fmap.
    apply (inv_repr_inj _ _ _ _ _ _ Hinv).
  - intros r [i Hi]%list_elem_of_lookup. rewrite list_lookup_fmap in Hi.
    destruct (inv_conf _ _ _ Hinv i r Hi) as [_ Hr].
    apply elem_of_seqZ.
    replace (n + 2) with (n + 1 + 1) in Hr by lia.
    rewrite (Z.pow_add_r 2 (n + 1) 1) in Hr by lia. lia.
Qed.

Lemma main_loop_inv fuel curr b :
  0 ≤ n → inv curr [] b → (curr ≤ length (states b))%nat →
  (Z.to_nat (2 ^ (n + 1)) < fuel + curr)%nat →
  ∃ b', main_loop times_to_cross fuel curr b = Ret b'
    ∧ inv (length (states b')) [] b'.
Proof.
  intros Hn. revert curr b.
  induction fuel as [|fuel IH]; intros curr b Hinv Hcurr Hfuel.
  - pose proof (inv_length _ _ _ Hn Hinv). lia.
  - simpl. destruct (Nat.ltb_spec curr (length (states b))) as [Hlt|Hge].
    + destruct (process_state_inv curr b Hinv Hlt) as (b1 & -> & Hinv1 & Hl).
      simpl. apply IH; [done|lia|lia].
    + exists b. split; [done|]. by replace (length (states b)) with curr by lia.
Qed.

Lemma max_possible_states_ok :
  1 ≤ n ≤ 29 → max_possible_states times_to_cross = Ret (2 ^ (n + 1) - 2).
Proof.
  intros Hn. unfold max_possible_states.
  rewrite to_size_t_small by lia.
  unfold Cxx.shl_int, Cxx.int_value_type_bit_count.
  rewrite (proj2 (Z.leb_le 0 (n + 1))), (proj2 (Z.ltb_lt (n + 1) 32)) by lia.
  simpl. rewrite Z.shiftl_1_l.
  pose proof (pow2_le_mono 2 (n + 1) ltac:(lia)).
  pose proof (pow2_le_mono (n + 1) 30 ltac:(lia)).
  change (2 ^ 2) with 4 in *. change (2 ^ 30) with 1073741824 in *.
  unfold Cxx.to_int, Cxx.int_value_type_bit_count.
  change (2 ^ (32 - 1)) with 2147483648. change (2 ^ 32) with 4294967296.
  rewrite Z.mod_small by lia.
  unfold Cxx.sub_int, Cxx.in_int_range, Cxx.int_value_type_bit_count.
  change (2 ^ (32 - 1)) with 2147483648.
  rewrite (proj2 (Z.leb_le _ _)), (proj2 (Z.ltb_lt _ _)) by lia.
  simpl. f_equal. lia.
Qed.

Lemma initial_builder_inv :
  1 ≤ n ≤ 29 →
  ∃ b, initial_builder times_to_cross = Ret b
    ∧ inv 0 [] b
    ∧ states b = [with_repr (2 ^ (n + 1)); with_repr (2 ^ (n + 2) - 1)].
Proof.
  intros Hn. unfold initial_builder.
  rewrite start_ok, end_ok by (rewrite max_people_eq; lia). simpl.
  eexists. split; [done|]. split; [|done].
  assert (2 ^ (n + 1) ≠ 2 ^ (n + 2) - 1) as Hne.
  { replace (n + 2) with (n + 1 + 1) by lia.
    rewrite (Z.pow_add_r 2 (n + 1) 1) by lia.
    pose proof (pow2_le_mono 2 (n + 1) ltac:(lia)).
    change (2 ^ 2) with 4 in *. lia. }
  split; simpl.
  - intros r i. rewrite !lookup_insert, lookup_empty. unfold node_repr.
    repeat case_decide; subst; destruct i as [|[|i]]; simpl;
      split; intros Heq; try discriminate Heq;
      try (injection Heq as Heq); try done; try congruence; lia.
  - intros i r H. unfold node_repr in H.
    destruct i as [|[|i]]; simpl in H; [injection H as <-..|discriminate H].
    + apply configuration_start. rewrite max_people_eq. lia.
    + apply configuration_end. rewrite max_people_eq. lia.
  - intros u v t He. exfalso. unfold edge, crossings_at in He.
    destruct u as [|[|u]]; by apply elem_of_nil in He.
  - intros u v t He. exfalso. unfold edge, crossings_at in He.
    destruct u as [|[|u]]; by apply elem_of_nil in He.
  - intros u v t He. exfalso. unfold edge, crossings_at in He.
    destruct u as [|[|u]]; by apply elem_of_nil in He.
  - intros u ru r t _ [[Hlt _]|[_ Hd]]; [lia|by apply elem_of_nil in Hd].
  - intros u. unfold crossings_at. destruct u as [|[|u]]; apply NoDup_nil_2.
Qed.

(** With enough fuel [main] returns, and the invariant holds of the
    returned node list with every node processed. *)
Lemma main_inv fuel :
  1 ≤ n ≤ 29 → (Z.to_nat (2 ^ (n + 1)) < fuel)%nat →
  ∃ b, main times_to_cross fuel = Ret (states b)
    ∧ inv (length (states b)) [] b.
Proof.
  intros Hn Hfuel. unfold main.
  rewrite max_possible_states_ok by done. simpl.
  destruct (initial_builder_inv Hn) as (b0 & -> & Hinv0 & Hst0). simpl.
  destruct (main_loop_inv fuel 0 b0) as (b & Hb & Hinv);
    [lia|done|lia|lia|].
  rewrite Hb. simpl. by exists b.
Qed.

(** More fuel does not change a result. *)
Lemma main_loop_fuel_mono fuel fuel' curr b r :
  main_loop times_to_cross fuel curr b = r → r ≠ OutOfFuel →
  (fuel ≤ fuel')%nat →
  main_loop times_to_cross fuel' curr b = r.
Proof.
  revert fuel' curr b r.
  induction fuel as [|fuel IH]; intros fuel' curr b r Hr Hne Hle;
    [simpl in Hr; congruence|].
  destruct fuel' as [|fuel']; [lia|]. simpl in *.
  destruct (curr <? length (states b))%nat; [|done].
  destruct (process_state times_to_cross curr b) as [b1| | | |]; simpl in *;
    try done.
  apply IH; [done|done|lia].
Qed.

Lemma main_fuel_mono fuel fuel' r :
  main times_to_cross fuel = r → r ≠ OutOfFuel → (fuel ≤ fuel')%nat →
  main times_to_cross fuel' = r.
Proof.
  unfold main. intros Hr Hne Hle.
  destruct (max_possible_states times_to_cross); simpl in *; try done.
  destruct (initial_builder times_to_cross) as [b0| | | |]; simpl in *;
    try done.
  destruct (main_loop times_to_cross fuel 0 b0) as [b| | | |] eqn:E;
    simpl in *; try congruence;
    by rewrite (main_loop_fuel_mono fuel fuel' 0 b0 _ E).
Qed.

Lemma main_fuel_mono_ret fuel fuel' g :
  main times_to_cross fuel = Ret g → (fuel ≤ fuel')%nat →
  main times_to_cross fuel' = Ret g.
Proof. intros Hg Hle. by apply (main_fuel_mono fuel). Qed.

Lemma main_result :
  1 ≤ n ≤ 29 →
  ∃ b, (∀ fuel, (enough_fuel ≤ fuel)%nat →
          main times_to_cross fuel = Ret (states b))
    ∧ inv (length (states b)) [] b.
Proof.
  intros Hn. destruct (main_inv enough_fuel Hn) as (b & Hb & Hinv).
  { unfold enough_fuel. lia. }
  exists b. split; [|done]. intros fuel Hle.
  by apply (main_fuel_mono enough_fuel).
Qed.

(** Outside 1..29 people [main] does not reach its loop: with no people
    [start] throws; with 30 the [int] computation of [max_possible_states]
    overflows (and [end] would shift by the width of its type); with more,
    the shift of [max_possible_states] is undefined. *)
Lemma main_no_loop :
  ¬ (1 ≤ n ≤ 29) →
  ∃ r, (∀ g, r ≠ Ret g) ∧ r ≠ OutOfFuel
    ∧ ∀ fuel, main times_to_cross fuel = r.
Proof.
  intros Hn. unfold main.
  assert (max_possible_states times_to_cross = Undefined
          ∨ ∃ v, max_possible_states times_to_cross = Ret v) as [->| [v ->]].
  { unfold max_possible_states, Cxx.shl_int, Cxx.sub_int.
    destruct (_ && _); simpl; [|by left].
    destruct (Cxx.in_int_range _); [right; by eexists|by left]. }
  { exists Undefined. done. }
  simpl. unfold initial_builder.
  destruct (decide (1 ≤ n ≤ bridge_state.max_people)) as [Hin|Hout].
  - rewrite max_people_eq in Hin. assert (n = 30) as Hn30 by lia.
    rewrite start_ok by (rewrite max_people_eq; lia). simpl.
    rewrite Hn30. change 30 with bridge_state.max_people.
    rewrite end_max_people.
    exists Undefined. done.
  - rewrite start_throw by done. exists (Throw PersonCountOutOfRange). done.
Qed.

End Invariant.

(** ** Eligibility masks of the start and end configurations *)

Section StartEndMasks.
Import Cxx bridge_state.
Local Open Scope Z_scope.

Lemma popcount_double_succ z : 0 ≤ z → popcount (2 * z + 1) = S (popcount z).
Proof. intros Hz. destruct z; simpl; (done || lia). Qed.

Lemma ones_succ k : 0 ≤ k → Z.ones (k + 1) = 2 * Z.ones k + 1.
Proof.
  intros Hk. rewrite !Z.ones_equiv, Z.pow_add_r, Z.pow_1_r by lia.
  pose proof (pow2_pos k Hk). lia.
Qed.

Lemma popcount_ones (k : nat) : popcount (Z.ones (Z.of_nat k)) = k.
Proof.
  induction k as [|k IH]; [done|].
  rewrite Nat2Z.inj_succ, <- Z.add_1_r, ones_succ by lia.
  rewrite popcount_double_succ, IH; [done|].
  rewrite Z.ones_equiv. pose proof (pow2_pos (Z.of_nat k)). lia.
Qed.

Lemma eligible_start N i :
  0 ≤ N → 0 ≤ i → eligible N (2 ^ (N + 1)) i = (i <? N).
Proof.
  intros HN Hi. unfold eligible, person_crossed, torch_crossed.
  rewrite !Z.pow2_bits_eqb by lia.
  destruct (Z.ltb_spec i N); [|done]. simpl.
  rewrite (proj2 (Z.eqb_neq (N + 1) (i + 1))) by lia.
  by rewrite (proj2 (Z.eqb_neq (N + 1) 0)) by lia.
Qed.

Lemma eligible_end N i :
  0 ≤ N → 0 ≤ i → eligible N (2 ^ (N + 2) - 1) i = (i <? N).
Proof.
  intros HN Hi. unfold eligible, person_crossed, torch_crossed.
  replace (2 ^ (N + 2) - 1) with (Z.ones (N + 2))
    by (rewrite Z.ones_equiv; lia).
  rewrite !Z.testbit_ones_nonneg by lia.
  destruct (Z.ltb_spec i N); [|done]. simpl.
  rewrite (proj2 (Z.ltb_lt (i + 1) (N + 2))) by lia.
  by rewrite (proj2 (Z.ltb_lt 0 (N + 2))) by lia.
Qed.

Lemma mask_all N s m :
  0 ≤ N →
  (∀ i, 0 ≤ i → eligible N s i = (i <? N)) →
  (∀ i, 0 ≤ i → Z.testbit m i = eligible N s i) →
  m = Z.ones N.
Proof.
  intros HN He Hm. apply Z.bits_inj'. intros i Hi.
  by rewrite Hm, He, Z.testbit_ones_nonneg.
Qed.

(** Everybody may cross from the start configuration. *)
Lemma crossers_of_start N :
  1 ≤ N ≤ max_people →
  ∃ s, start N = Ret s
    ∧ get_possible_crosser_indices s = Ret (Z.ones N)
    ∧ popcount (Z.ones N) = Z.to_nat N.
Proof.
  intros HN. rewrite start_ok by done. eexists. split; [done|].
  destruct (get_possible_crosser_indices_ok N (with_repr (2 ^ (N + 1))))
    as (m & -> & _ & Hm); [by apply configuration_start|].
  simpl in Hm. split.
  - f_equal. apply (mask_all N (2 ^ (N + 1))); [lia| |done].
    intros i Hi. apply eligible_start; lia.
  - rewrite <- (Z2Nat.id N) at 1 by lia. apply popcount_ones.
Qed.

(** Everybody may cross back from the end configuration; the largest
    people count is left out, see [end_max_people]. *)
Lemma crossers_of_end N :
  1 ≤ N < max_people →
  ∃ s, end_ N = Ret s
    ∧ get_possible_crosser_indices s = Ret (Z.ones N)
    ∧ popcount (Z.ones N) = Z.to_nat N.
Proof.
  intros HN. rewrite end_ok by done. eexists. split; [done|].
  destruct (get_possible_crosser_indices_ok N (with_repr (2 ^ (N + 2) - 1)))
    as (m & -> & _ & Hm); [apply configuration_end; lia|].
  simpl in Hm. split.
  - f_equal. apply (mask_all N (2 ^ (N + 2) - 1)); [lia| |done].
    intros i Hi. apply eligible_end; lia.
  - rewrite <- (Z2Nat.id N) at 1 by lia. apply popcount_ones.
Qed.

(** The mask of a configuration has one bit per person, set for the
    people on the bank of the torch. *)
Lemma crossers_of_configuration N s :
  is_configuration N (state_repr s) →
  ∃ m, get_possible_crosser_indices s = Ret m
    ∧ 0 ≤ m < 2 ^ N
    ∧ ∀ i, 0 ≤ i < N →
        Z.testbit m i
        = Bool.eqb (person_crossed (state_repr s) i)
            (torch_crossed (state_repr s)).
Proof.
  intros Hc. destruct (get_possible_crosser_indices_ok N s Hc)
    as (m & Hm & Hr & Hb).
  exists m. split; [done|]. split; [done|]. intros i Hi.
  rewrite Hb by lia. unfold eligible.
  by rewrite (proj2 (Z.ltb_lt i N)) by lia.
Qed.

(** [start] and [end] below the boundary: distinct configurations with
    the sentinel at position [n + 1]; [start] has every lower bit clear,
    [end] has every lower bit set. *)
Lemma start_end_configurations n :
  1 ≤ n ≤ max_people →
  (∃ s, start n = Ret s
     ∧ get_leading_one_pos (state_repr s) = Ret (n + 1)
     ∧ ∀ k, 0 ≤ k → Z.testbit (state_repr s) k = (k =? n + 1))
  ∧ (n < max_people →
     ∃ e, end_ n = Ret e
       ∧ get_leading_one_pos (state_repr e) = Ret (n + 1)
       ∧ (∀ k, 0 ≤ k → Z.testbit (state_repr e) k = (k <? n + 2))
       ∧ start n ≠ Ret e).
Proof.
  intros Hn. split.
  - rewrite start_ok by done. eexists. split; [done|]. simpl. split.
    + by apply get_leading_one_pos_configuration, configuration_start.
    + intros k Hk. rewrite Z.pow2_bits_eqb by lia. apply Z.eqb_sym.
  - intros Hlt. rewrite end_ok by lia. eexists. split; [done|]. simpl.
    split; [|split].
    + by apply get_leading_one_pos_configuration, configuration_end.
    + intros k Hk.
      replace (2 ^ (n + 2) - 1) with (Z.ones (n + 2))
        by (rewrite Z.ones_equiv; lia).
      apply Z.testbit_ones_nonneg; lia.
    + rewrite start_ok by done. intros [= H].
      replace (n + 2) with (n + 1 + 1) in H by lia.
      rewrite (Z.pow_add_r 2 (n + 1) 1) in H by lia.
      pose proof (pow2_le_mono 2 (n + 1) ltac:(lia)).
      change (2 ^ 2) with 4 in *. lia.
Qed.

End StartEndMasks.

(** ** Returns of the crossing operations *)

Section CrossingReturns.
Import bridge_state.
Local Open Scope Z_scope.

Lemma after_single_crossing_inv n su i s' :
  is_configuration n (state_repr su) → 0 ≤ i →
  after_single_crossing su i = Ret s' →
  i < n ∧ s' = with_repr (flip1 (state_repr su) i).
Proof.
  intros Hc Hi H. destruct (decide (i < n)) as [Hlt|Hge].
  - rewrite (after_single_crossing_ok n) in H by (done || lia).
    by injection H as <-.
  - rewrite (after_single_crossing_throw n) in H by (done || lia). done.
Qed.

Lemma after_double_crossing_inv n su i j s' :
  is_configuration n (state_repr su) → 0 ≤ i → 0 ≤ j →
  after_double_crossing su i j = Ret s' →
  i < n ∧ j < n ∧ i ≠ j ∧ s' = with_repr (flip2 (state_repr su) i j).
Proof.
  intros Hc Hi Hj H.
  destruct (decide (i = j ∨ n ≤ i ∨ n ≤ j)) as [Hbad|Hok].
  - destruct (after_double_crossing_fails n su i j Hc Hbad) as (e & He & _).
    congruence.
  - rewrite (after_double_crossing_ok n) in H by (done || lia).
    injection H as <-. repeat split; lia.
Qed.

End CrossingReturns.

(** ** The crossing behind an edge *)

Section CrossingCost.
Import bridge_state.
Local Open Scope Z_scope.
Variable times_to_cross : list Z.
Abbreviation n := (people_count times_to_cross).

Lemma flip2_comm s i j : flip2 s i j = flip2 s j i.
Proof.
  unfold flip2.
  rewrite (Z.lxor_assoc _ (2 ^ (i + 1))), (Z.lxor_assoc _ (2 ^ (j + 1))).
  f_equal. apply Z.lxor_comm.
Qed.

Lemma crossing_single_cost su rv t i :
  is_configuration n (state_repr su) →
  crossing times_to_cross (state_repr su) rv t → 0 ≤ i →
  after_single_crossing su i = Ret (with_repr rv) →
  vector_at times_to_cross (Z.to_nat i) = Ret t.
Proof.
  intros Hc Hcr Hi H.
  apply (after_single_crossing_inv n) in H as [Hlt [= ->]]; [|done..].
  inversion Hcr as [i0 Hi0 He0 Heq|i0 j0 Hij0 Hei0 Hej0 Heq].
  - apply flip1_inj in Heq as ->; [|done..]. apply vector_at_time. lia.
  - symmetry in Heq. by apply flip1_flip2_neq in Heq.
Qed.

Lemma crossing_double_cost su rv t i j :
  is_configuration n (state_repr su) →
  crossing times_to_cross (state_repr su) rv t → 0 ≤ i → 0 ≤ j →
  after_double_crossing su i j = Ret (with_repr rv) →
  ∃ ti tj, vector_at times_to_cross (Z.to_nat i) = Ret ti
    ∧ vector_at times_to_cross (Z.to_nat j) = Ret tj
    ∧ t = Z.max ti tj.
Proof.
  intros Hc Hcr Hi Hj H.
  apply (after_double_crossing_inv n) in H
    as (Hlti & Hltj & Hne & [= ->]); [|done..].
  exists (time_of times_to_cross i), (time_of times_to_cross j).
  rewrite !vector_at_time by lia. split; [done|]. split; [done|].
  assert (∀ a b, 0 ≤ a < b → flip2 (state_repr su) a b = flip2 (state_repr su) i j →
    t = Z.max (time_of times_to_cross a) (time_of times_to_cross b) →
    t = Z.max (time_of times_to_cross i) (time_of times_to_cross j)) as Hord.
  { intros a b Hab Heq ->. destruct (decide (i < j)).
    - by apply flip2_inj in Heq as [-> ->]; [|lia..].
    - rewrite (flip2_comm _ i j) in Heq.
      apply flip2_inj in Heq as [-> ->]; [|lia..]. apply Z.max_comm. }
  inversion Hcr as [i0 Hi0 He0 Heq Ht|i0 j0 Hij0 Hei0 Hej0 Heq Ht].
  - exfalso. destruct (decide (i < j)).
    + by apply flip1_flip2_neq in Heq; [|lia..].
    + rewrite (flip2_comm _ i j) in Heq.
      by apply flip1_flip2_neq in Heq; [|lia..].
  - subst t. by apply (Hord i0 j0).
Qed.

Lemma crossing_after su rv t :
  is_configuration n (state_repr su) →
  crossing times_to_cross (state_repr su) rv t →
  (∃ i, 0 ≤ i ∧ after_single_crossing su i = Ret (with_repr rv))
  ∨ (∃ i j, 0 ≤ i ∧ 0 ≤ j
       ∧ after_double_crossing su i j = Ret (with_repr rv)).
Proof.
  intros Hc [i Hi He|i j Hij Hei Hej].
  - left. exists i. split; [done|]. apply eligible_lt in He.
    by apply (after_single_crossing_ok n).
  - right. exists i, j. split; [lia|]. split; [lia|].
    apply eligible_lt in Hei, Hej.
    apply (after_double_crossing_ok n); (done || lia).
Qed.

End CrossingCost.

(** ** Properties of the constructed graph *)

Section GraphProperties.
Local Open Scope Z_scope.
Variable times_to_cross : list Z.
Abbreviation n := (people_count times_to_cross).
Abbreviation crossings_recorded := (crossings_recorded times_to_cross).
Abbreviation documented_cost := (documented_cost times_to_cross).




Lemma inv_crossings_recorded b :
  inv times_to_cross (length (states b)) [] b →
  crossings_recorded (states b).
Proof.
  intros Hinv u ru r t Hu Hc.
  apply (inv_complete _ _ _ _ Hinv u ru r t Hu). left.
  split; [by eapply node_repr_lt|done].
Qed.

Lemma inv_no_self_loop curr done b :
  inv times_to_cross curr done b → no_self_loop (states b).
Proof.
  intros Hinv u v t He ->.
  destruct (inv_legal _ _ _ _ Hinv _ _ _ He) as (ru & rv & Hu & Hv & Hc).
  apply crossing_neq in Hc. congruence.
Qed.

Lemma inv_documented_cost curr done b :
  inv times_to_cross curr done b → documented_cost (states b).
Proof.
  intros Hinv u v t su sv He Hu Hv.
  destruct (inv_legal _ _ _ _ Hinv _ _ _ He) as (ru & rv & Hru & Hrv & Hc).
  unfold node_repr in Hru, Hrv. rewrite Hu in Hru. rewrite Hv in Hrv.
  injection Hru as <-. injection Hrv as <-.
  assert (is_configuration n (state_repr su)) as Hconf.
  { apply (inv_conf _ _ _ _ Hinv u). unfold node_repr. by rewrite Hu. }
  split; [by eapply crossing_after|]. split.
  - intros i Hi H. by eapply crossing_single_cost.
  - intros i j Hi Hj H. by eapply crossing_double_cost.
Qed.

Lemma inv_nodes_distinct curr done b :
  inv times_to_cross curr done b → NoDup (state_repr <$> states b).
Proof.
  intros Hinv. apply NoDup_alt. intros i j r. rewrite !list_lookup_fmap.
  apply (inv_repr_inj _ _ _ _ _ _ _ Hinv).
Qed.

End GraphProperties.

(** ** Constructed states *)

Section Constructed.
Import Cxx bridge_state.
Local Open Scope Z_scope.

Lemma start_inv n s :
  start n = Ret s → 1 ≤ n ≤ max_people ∧ s = with_repr (2 ^ (n + 1)).
Proof.
  intros H. destruct (decide (1 ≤ n ≤ max_people)) as [Hn|Hn].
  - rewrite start_ok in H by done. by injection H as <-.
  - by rewrite start_throw in H.
Qed.

Lemma end_inv n s :
  end_ n = Ret s → 1 ≤ n < max_people ∧ s = with_repr (2 ^ (n + 2) - 1).
Proof.
  intros H. destruct (decide (1 ≤ n ≤ max_people)) as [Hn|Hn].
  - destruct (decide (n = max_people)) as [->|Hne].
    + by rewrite end_max_people in H.
    + rewrite end_ok in H by lia. injection H as <-. split; [lia|done].
  - by rewrite end_throw in H.
Qed.

Lemma constructed_configuration n s :
  constructed n s → is_configuration n (state_repr s).
Proof.
  induction 1 as [s H|s H|s i s' _ IH Hi H|s i j s' _ IH Hi Hj H].
  - apply start_inv in H as [Hn ->]. by apply configuration_start.
  - apply end_inv in H as [Hn ->]. apply configuration_end. lia.
  - apply (after_single_crossing_inv n) in H as [Hlt ->]; [|done..].
    apply configuration_flip1; [done|lia].
  - apply (after_double_crossing_inv n) in H as (Hlti & Hltj & _ & ->);
      [|done..].
    apply configuration_flip2; [done|lia..].
Qed.

Lemma configuration_leading_one n s :
  is_configuration n (state_repr s) → leading_one_defined n s.
Proof.
  intros Hc. pose proof (configuration_word _ _ Hc) as Hw.
  destruct Hc as [Hn Hs]. rewrite max_people_eq in Hn.
  assert (2 ^ n ≤ Z.shiftr (state_repr s) 1 < 2 ^ (n + 1)) as Hr.
  { apply shiftr_sentinel; [lia|].
    rewrite Z.shiftr_shiftr by lia. rewrite (Z.add_comm 1 n).
    apply shiftr_sentinel; [lia|]. by replace (n + 1 + 1) with (n + 2) by lia. }
  pose proof (pow2_pos n ltac:(lia)) as Hp.
  pose proof (pow2_le_mono (n + 1) 32 ltac:(lia)) as Hq.
  split; [lia|]. split; [|split; [|split; [lia|]]].
  - rewrite <- (Z.add_0_l (n + 1)), <- Z.shiftr_spec by lia.
    replace (n + 2) with (n + 1 + 1) in Hs by lia.
    apply shiftr_sentinel in Hs as ->; [done|lia].
  - apply (get_leading_one_pos_configuration n). split; [|done].
    rewrite max_people_eq. lia.
  - rewrite get_leading_one_pos_word by lia. f_equal.
    apply log2_sentinel; [lia|done].
Qed.

End Constructed.

(** ** The example run of [main] *)

Lemma example_main :
  ∃ g, main example_times 31 = Ret g
    ∧ length g = 30%nat
    ∧ NoDup (state_repr <$> g).
Proof.
  let r := eval vm_compute in (main example_times 31) in
  match r with Ret ?g => exists g end.
  split; [vm_compute; reflexivity|]. split; [reflexivity|].
  apply (NoDup_fmap_1 Z.to_nat), (bool_decide_unpack (NoDup _)).
  vm_compute. exact I.
Qed.

(** * The claims *)

(** C1 (as amended). For the example input [1, 10, 100, 1000] the
    construction in [main] returns a node list of exactly 30 nodes, with 30
    distinct configurations (the start and end configurations among them),
    for every loop budget of at least 31 turns. *)
Theorem example_node_count_30 :
  ∃ g, (∀ fuel, (31 ≤ fuel)%nat → main example_times fuel = Ret g)
    ∧ length g = 30%nat
    ∧ NoDup (state_repr <$> g).
Proof.
  destruct example_main as (g & Hg & Hl & Hnd). exists g.
  split; [|split; assumption]. intros fuel Hfuel.
  exact (main_fuel_mono_ret example_times 31 fuel g Hg Hfuel).
Qed.

(** C1 (as stated) fails: no run of [main] on the example input returns a
    node list of 16 nodes. *)
Lemma example_node_count_not_16 :
  ¬ ∃ fuel g, main example_times fuel = Ret g ∧ length g = 16%nat.
Proof.
  intros (fuel & g & Hg & Hl).
  destruct example_main as (g30 & Hg30 & Hl30 & _).
  pose proof (main_fuel_mono_ret example_times fuel (fuel `max` 31)%nat g Hg
    (Nat.le_max_l fuel 31)) as Hg'.
  pose proof (main_fuel_mono_ret example_times 31 (fuel `max` 31)%nat g30 Hg30
    (Nat.le_max_r fuel 31)) as Hg30'.
  clear Hg Hg30. rewrite Hg' in Hg30'. injection Hg30' as ->. lia.
Qed.



(** C5. Every record of the constructed graph carries the documented
    time: it comes from a single or a double crossing between the
    configurations of its two nodes; if person [i] crossing alone leads from
    the one to the other the time is [times_to_cross[i]], and if persons [i]
    and [j] crossing together do, it is the larger of [times_to_cross[i]]
    and [times_to_cross[j]]. *)
Theorem construction_documented_cost (times_to_cross : list Z) :
  (1 ≤ people_count times_to_cross ≤ 29)%Z →
  ∃ g, returns times_to_cross g ∧ documented_cost times_to_cross g.
Proof.
  intros Hn. destruct (main_result times_to_cross Hn) as (b & Hb & Hinv).
  exists (states b). split; [done|]. by eapply inv_documented_cost.
Qed.

Lemma construction_documented_cost_example :
  ∃ g, returns example_times g ∧ documented_cost example_times g.
Proof.
  apply (construction_documented_cost example_times).
  change (people_count example_times) with 4%Z. lia.
Defined.

(** C6. For every people count the construction completes for (1 to 29),
    no node of the constructed graph records a crossing to itself; and a
    crossing from the configuration of a node never gives back the same
    configuration, since the torch bit is flipped. *)
Theorem construction_no_self_loop (times_to_cross : list Z) :
  (1 ≤ people_count times_to_cross ≤ 29)%Z →
  ∃ g, returns times_to_cross g
    ∧ no_self_loop g
    ∧ ∀ s, s ∈ g →
        (∀ i s', (0 ≤ i)%Z →
           bridge_state.after_single_crossing s i = Ret s' →
           bridge_state.get_torch_crossed s'
           = negb (bridge_state.get_torch_crossed s)
           ∧ state_repr s' ≠ state_repr s)
        ∧ (∀ i j s', (0 ≤ i)%Z → (0 ≤ j)%Z →
           bridge_state.after_double_crossing s i j = Ret s' →
           bridge_state.get_torch_crossed s'
           = negb (bridge_state.get_torch_crossed s)
           ∧ state_repr s' ≠ state_repr s).
Proof.
  intros Hn. destruct (main_result times_to_cross Hn) as (b & Hb & Hinv).
  exists (states b). split; [done|]. split; [by eapply inv_no_self_loop|].
  intros s [k Hk]%list_elem_of_lookup.
  assert (is_configuration (people_count times_to_cross) (state_repr s))
    as Hc.
  { apply (inv_conf _ _ _ _ Hinv k). unfold node_repr. by rewrite Hk. }
  split.
  - intros i s' Hi H.
    apply (after_single_crossing_inv _ _ _ _ Hc Hi) in H as [_ ->].
    rewrite !get_torch_crossed_testbit. simpl.
    split; [by apply flip1_flips_torch|by apply flip1_neq].
  - intros i j s' Hi Hj H.
    apply (after_double_crossing_inv _ _ _ _ _ Hc Hi Hj) in H
      as (_ & _ & Hne & ->).
    rewrite !get_torch_crossed_testbit. simpl.
    split; [by apply flip2_flips_torch|by apply flip2_neq].
Qed.

Lemma construction_no_self_loop_example :
  ∃ g, returns example_times g ∧ no_self_loop g.
Proof.
  destruct (construction_no_self_loop example_times) as (g & Hg & Hl & _).
  - change (people_count example_times) with 4%Z. lia.
  - exists g. exact (conj Hg Hl).
Defined.

(** C9. The worklist loop always terminates: for every input, [main] has
    one outcome for every loop budget from [enough_fuel] on, and it is not
    the exhaustion of the budget; the outcome is a node list exactly when
    there are 1 to 29 people, and a returned node list holds every
    configuration once and is no longer than the [2^(n+1)] bit patterns a
    configuration of [n] people can take. *)
Theorem worklist_terminates (times_to_cross : list Z) :
  ∃ r, r ≠ OutOfFuel
    ∧ (∀ fuel, (enough_fuel times_to_cross ≤ fuel)%nat →
         main times_to_cross fuel = r)
    ∧ ((1 ≤ people_count times_to_cross ≤ 29)%Z ↔ ∃ g, r = Ret g)
    ∧ ∀ g, r = Ret g →
        NoDup (state_repr <$> g)
        ∧ (length g ≤ Z.to_nat (2 ^ (people_count times_to_cross + 1)))%nat.
Proof.
  destruct (decide (1 ≤ people_count times_to_cross ≤ 29)%Z) as [Hn|Hn].
  - destruct (main_result times_to_cross Hn) as (b & Hb & Hinv).
    exists (Ret (states b)). split; [done|]. split; [done|].
    split; [split; [by eexists|done]|].
    intros g [= <-]. split; [by eapply inv_nodes_distinct|].
    apply (inv_length times_to_cross (length (states b)) []); [lia|done].
  - destruct (main_no_loop times_to_cross Hn) as (r & Hr & Hne & Hall).
    exists r. split; [done|]. split; [auto|].
    split; [split; [done|]; intros [g ->]; by destruct (Hr g)|].
    intros g ->. by destruct (Hr g).
Qed.

(** C10, on the code. Every state that [start], [end] and the two crossing
    operations return keeps its sentinel bit: the state is not zero and
    neither is the state shifted right once, so both calls of
    [get_leading_one_pos] made on it return, with the sentinel position
    [n + 1] and with [n]; the same holds of every node of a graph [main]
    returns. [start] returns such a state for every people count in
    [1 .. max_people], [end] for every count below [max_people]. At
    [max_people] = 30 the validation of [end] passes and the shift by the
    width of [unsigned int] is undefined: [end] sets no sentinel bit there,
    and on the word 0 [get_leading_one_pos], that is [__builtin_clz], and
    [get_possible_crosser_indices] are undefined. *)
Theorem leading_one_sentinel_boundary :
  (∀ n s, constructed n s → leading_one_defined n s)
  ∧ (∀ times_to_cross,
      (1 ≤ people_count times_to_cross ≤ 29)%Z →
      ∃ g, returns times_to_cross g
        ∧ ∀ s, s ∈ g →
            leading_one_defined (people_count times_to_cross) s)
  ∧ (∀ n, (1 ≤ n ≤ bridge_state.max_people)%Z →
      ∃ s, bridge_state.start n = Ret s ∧ leading_one_defined n s)
  ∧ (∀ n, (1 ≤ n < bridge_state.max_people)%Z →
      ∃ s, bridge_state.end_ n = Ret s ∧ leading_one_defined n s)
  ∧ bridge_state.validate_people_count bridge_state.max_people = Ret tt
  ∧ bridge_state.end_ bridge_state.max_people = Undefined
  ∧ (∀ s, bridge_state.end_ bridge_state.max_people ≠ Ret s)
  ∧ bridge_state.get_leading_one_pos 0 = Undefined
  ∧ bridge_state.get_possible_crosser_indices (with_repr 0) = Undefined.
Proof.
  assert (∀ n s, constructed n s → leading_one_defined n s) as Hall.
  { intros n s Hs.
    by apply configuration_leading_one, constructed_configuration. }
  split; [exact Hall|]. split.
  { intros times_to_cross Hn.
    destruct (main_result times_to_cross Hn) as (b & Hb & Hinv).
    exists (states b). split; [done|].
    intros s [k Hk]%list_elem_of_lookup. apply configuration_leading_one.
    apply (inv_conf _ _ _ _ Hinv k). unfold node_repr. by rewrite Hk. }
  split.
  { intros n Hn. eexists. split; [by apply start_ok|].
    apply Hall, constructed_start. by apply start_ok. }
  split.
  { intros n Hn. eexists. split; [by apply end_ok|].
    apply Hall, constructed_end. by apply end_ok. }
  split; [by apply validate_people_count_ok|].
  split; [apply end_max_people|].
  split; [intros s; by rewrite end_max_people|].
  split; reflexivity.
Qed.

Lemma leading_one_sentinel_boundary_example :
  leading_one_defined 4 (with_repr 35).
Proof.
  apply (proj1 leading_one_sentinel_boundary 4%Z (with_repr 35)).
  apply (constructed_single 4%Z (with_repr 32) 0%Z); [|done|reflexivity].
  apply constructed_start. reflexivity.
Defined.

Section CodecClaims.
Import Cxx bridge_state.
Local Open Scope Z_scope.

(** C8. [start] and [end] fail with the invalid-argument error
    [PersonCountOutOfRange] exactly when the people count is outside
    [1 .. max_people], and with no other error; [start(0)] and
    [start(max_people + 1)] fail. *)
Theorem people_count_out_of_range (people_count : Z) :
  (∀ e, start people_count = Throw e
        ↔ e = PersonCountOutOfRange ∧ ¬ (1 ≤ people_count ≤ max_people))
  ∧ (∀ e, end_ people_count = Throw e
          ↔ e = PersonCountOutOfRange ∧ ¬ (1 ≤ people_count ≤ max_people))
  ∧ is_invalid_argument PersonCountOutOfRange = true
  ∧ start 0 = Throw PersonCountOutOfRange
  ∧ start (max_people + 1) = Throw PersonCountOutOfRange.
Proof.
  split; [|split; [|done]].
  - intros e. destruct (decide (1 ≤ people_count ≤ max_people)) as [Hn|Hn].
    + rewrite start_ok by done. split; [done|]. by intros [_ ?].
    + rewrite start_throw by done. split; [by intros [= <-]|by intros [-> _]].
  - intros e. destruct (decide (1 ≤ people_count ≤ max_people)) as [Hn|Hn].
    + split; [|by intros [_ ?]].
      destruct (decide (people_count = max_people)) as [->|Hne].
      * by rewrite end_max_people.
      * by rewrite end_ok by lia.
    + rewrite end_throw by done. split; [by intros [= <-]|by intros [-> _]].
Qed.

(** C7. On a configuration of [n] people, whose sentinel position is
    [n + 1], [after_double_crossing] fails with an invalid-argument error
    exactly when the two indices are equal or one of them is at least the
    sentinel position less one; otherwise it returns the configuration in
    which the torch bit and the person bits [i] and [j], and no other bit,
    are flipped. *)
Theorem after_double_crossing_fails_iff (n : Z) (s : bridge_state_type)
    (i j : Z) :
  is_configuration n (state_repr s) → 0 ≤ i → 0 ≤ j →
  get_leading_one_pos (state_repr s) = Ret (n + 1)
  ∧ ((∃ e, after_double_crossing s i j = Throw e
           ∧ is_invalid_argument e = true)
     ↔ i = j ∨ (n + 1) - 1 ≤ i ∨ (n + 1) - 1 ≤ j)
  ∧ (¬ (i = j ∨ (n + 1) - 1 ≤ i ∨ (n + 1) - 1 ≤ j) →
     ∃ s', after_double_crossing s i j = Ret s'
       ∧ ∀ k, 0 ≤ k →
           Z.testbit (state_repr s') k
           = xorb (Z.testbit (state_repr s) k)
               ((k =? 0) || (k =? i + 1) || (k =? j + 1))).
Proof.
  intros Hc Hi Hj.
  split; [by apply get_leading_one_pos_configuration|]. split.
  - split.
    + intros (e & He & _).
      destruct (decide (i = j ∨ n + 1 - 1 ≤ i ∨ n + 1 - 1 ≤ j)) as [|Hok];
        [done|].
      rewrite (after_double_crossing_ok n) in He by (done || lia). done.
    + intros H. apply (after_double_crossing_fails n); [done|lia].
  - intros Hok. rewrite (after_double_crossing_ok n) by (done || lia).
    eexists. split; [done|]. intros k Hk. simpl.
    apply testbit_flip2; (done || lia).
Qed.

Lemma after_double_crossing_fails_iff_example :
  ∃ s', after_double_crossing (with_repr 32) 0 1 = Ret s'
    ∧ ∀ k, 0 ≤ k →
        Z.testbit (state_repr s') k
        = xorb (Z.testbit 32 k) ((k =? 0) || (k =? 0 + 1) || (k =? 1 + 1)).
Proof.
  refine (proj2 (proj2
    (after_double_crossing_fails_iff 4 (with_repr 32) 0 1 _ _ _)) _).
  - split; [rewrite max_people_eq|]; simpl; lia.
  - lia.
  - lia.
  - lia.
Defined.

(** C4, on the code. For every people count in [1 .. max_people]
    [start] returns a configuration whose only set bit is the sentinel at
    position [people_count + 1]; below [max_people] so does [end], with the
    sentinel and every bit under it set, and the two differ. At the
    boundary [max_people] = 30 the validation of [end] passes, the shift
    amount [max_people + 2] equals the width of [unsigned int], and the
    shift, hence [end(max_people)], has undefined behaviour: no
    configuration with the sentinel at position 31 is returned. *)
Theorem start_end_sentinel_boundary :
  (∀ n, 1 ≤ n ≤ max_people →
     (∃ s, start n = Ret s
        ∧ get_leading_one_pos (state_repr s) = Ret (n + 1)
        ∧ ∀ k, 0 ≤ k → Z.testbit (state_repr s) k = (k =? n + 1))
     ∧ (n < max_people →
        ∃ e, end_ n = Ret e
          ∧ get_leading_one_pos (state_repr e) = Ret (n + 1)
          ∧ (∀ k, 0 ≤ k → Z.testbit (state_repr e) k = (k <? n + 2))
          ∧ start n ≠ Ret e))
  ∧ validate_people_count max_people = Ret tt
  ∧ to_size_t (max_people + 2) = int_value_type_bit_count
  ∧ shl_unsigned one_as_int_value_type (to_size_t (max_people + 2))
    = Undefined
  ∧ end_ max_people = Undefined.
Proof.
  split; [exact start_end_configurations|].
  split; [by apply validate_people_count_ok|].
  split; [reflexivity|].
  split; [by apply shl_unsigned_width|apply end_max_people].
Qed.

(** C3, on the code. The mask [get_possible_crosser_indices] returns for a
    configuration of [N] people has one bit per person, set exactly for
    the people on the bank of the torch; the mask of [start(N)] has [N] set
    bits for every [N] in [1 .. max_people], the mask of [end(N)] for every
    [N] below [max_people]; the mask of [end(max_people)] is not defined,
    because [end(max_people)] is not. *)
Theorem eligibility_mask_boundary :
  (∀ N s, is_configuration N (state_repr s) →
     ∃ m, get_possible_crosser_indices s = Ret m
       ∧ 0 ≤ m < 2 ^ N
       ∧ ∀ i, 0 ≤ i < N →
           Z.testbit m i
           = Bool.eqb (person_crossed (state_repr s) i)
               (torch_crossed (state_repr s)))
  ∧ (∀ N, 1 ≤ N ≤ max_people →
       ∃ s m, start N = Ret s
         ∧ get_possible_crosser_indices s = Ret m
         ∧ popcount m = Z.to_nat N)
  ∧ (∀ N, 1 ≤ N < max_people →
       ∃ e m, end_ N = Ret e
         ∧ get_possible_crosser_indices e = Ret m
         ∧ popcount m = Z.to_nat N)
  ∧ (e ← end_ max_people; get_possible_crosser_indices e) = Undefined.
Proof.
  split; [exact crossers_of_configuration|]. split; [|split].
  - intros N HN. destruct (crossers_of_start N HN) as (s & Hs & Hm & Hp).
    by exists s, (Z.ones N).
  - intros N HN. destruct (crossers_of_end N HN) as (e & He & Hm & Hp).
    by exists e, (Z.ones N).
  - by rewrite end_max_people.
Qed.

End CodecClaims.

(** * Further properties of the code *)

(** ** The crossing operations *)

Section CrossingOperations.
Import Cxx bridge_state.
Local Open Scope Z_scope.

(** X1. On a configuration of [n] people [after_single_crossing] throws
    [CrosserIndexOutOfRange] exactly for an index of [n] or more; otherwise
    it returns a configuration of the same [n] people, without crossing
    records, in which the torch bit and the bit of person [i], and no other
    bit, are flipped. *)
Theorem after_single_crossing_fails_iff (n : Z) (s : bridge_state_type)
    (i : Z) :
  is_configuration n (state_repr s) → 0 ≤ i →
  (after_single_crossing s i = Throw CrosserIndexOutOfRange ↔ n ≤ i)
  ∧ (i < n →
     ∃ s', after_single_crossing s i = Ret s'
       ∧ is_configuration n (state_repr s')
       ∧ possible_crossings s' = []
       ∧ ∀ k, 0 ≤ k →
           Z.testbit (state_repr s') k
           = xorb (Z.testbit (state_repr s) k) ((k =? 0) || (k =? i + 1))).
Proof.
  intros Hc Hi. split.
  - split.
    + intros H. destruct (decide (n ≤ i)) as [|Hlt]; [done|].
      by rewrite (after_single_crossing_ok n) in H by (done || lia).
    + by apply after_single_crossing_throw.
  - intros Hlt. rewrite (after_single_crossing_ok n) by (done || lia).
    eexists. split; [done|]. simpl.
    split; [by apply configuration_flip1|]. split; [done|].
    intros k Hk. by apply testbit_flip1.
Qed.

Lemma after_single_crossing_fails_iff_example :
  ∃ s', after_single_crossing (with_repr 32) 2 = Ret s'
    ∧ is_configuration 4 (state_repr s')
    ∧ possible_crossings s' = []
    ∧ ∀ k, 0 ≤ k →
        Z.testbit (state_repr s') k
        = xorb (Z.testbit 32 k) ((k =? 0) || (k =? 2 + 1)).
Proof.
  refine (proj2 (after_single_crossing_fails_iff 4 (with_repr 32) 2 _ _) _).
  - split; [rewrite max_people_eq|]; simpl; lia.
  - lia.
  - lia.
Defined.

(** X2. A crossing done twice is undone: on a configuration, the single
    crossing of a person applied to its own result gives back the
    configuration it started from, and so does the double crossing of that
    person with any other person. *)
Theorem crossing_twice_returns (n : Z) (s : bridge_state_type) (i : Z) :
  is_configuration n (state_repr s) → 0 ≤ i < n →
  (s' ← after_single_crossing s i; after_single_crossing s' i)
  = Ret (with_repr (state_repr s))
  ∧ ∀ j, 0 ≤ j < n → i ≠ j →
      (s' ← after_double_crossing s i j; after_double_crossing s' i j)
      = Ret (with_repr (state_repr s)).
Proof.
  intros Hc Hi. split.
  - rewrite (after_single_crossing_ok n) by done. simpl.
    rewrite (after_single_crossing_ok n)
      by (done || by apply configuration_flip1).
    simpl. by rewrite flip1_involutive by lia.
  - intros j Hj Hij. rewrite (after_double_crossing_ok n) by done. simpl.
    rewrite (after_double_crossing_ok n)
      by (done || by apply configuration_flip2).
    simpl. by rewrite flip2_involutive by lia.
Qed.

Lemma crossing_twice_returns_example :
  (s' ← after_single_crossing (with_repr 4) 0; after_single_crossing s' 0)
  = Ret (with_repr 4)
  ∧ (s' ← after_double_crossing (with_repr 32) 0 3;
     after_double_crossing s' 0 3)
    = Ret (with_repr 32).
Proof.
  split.
  - refine (proj1 (crossing_twice_returns 1 (with_repr 4) 0 _ _)); [|lia].
    split; [rewrite max_people_eq|]; simpl; lia.
  - refine (proj2 (crossing_twice_returns 4 (with_repr 32) 0 _ _) 3 _ _);
      [|lia..].
    split; [rewrite max_people_eq|]; simpl; lia.
Defined.

(** In the model, where an error is the check that failed without the text
    of its message, the two orders of the indices have the same outcome. *)
Lemma after_double_crossing_swap (s : bridge_state_type) (i j : Z) :
  after_double_crossing s i j = after_double_crossing s j i.
Proof.
  unfold after_double_crossing, validate_crosser_index.
  destruct (get_leading_one_pos (state_repr s)) as [p| | | |]; simpl;
    try done.
  destruct (i >=? to_size_t (p - 1)), (j >=? to_size_t (p - 1)); simpl;
    try done.
  rewrite (Z.eqb_sym j i). destruct (i =? j); [done|].
  assert (∀ k, crosser_bit k = Undefined ∨ ∃ v, crosser_bit k = Ret v)
    as Hbit.
  { intros k. unfold crosser_bit, shl_int.
    destruct (_ && _); simpl; [right; by eexists|by left]. }
  destruct (Hbit i) as [->|[bi ->]], (Hbit j) as [->|[bj ->]]; simpl;
    try done.
  do 2 f_equal. rewrite !Z.lxor_assoc. f_equal. f_equal. apply Z.lxor_comm.
Qed.

(** X3. The order of the two indices of [after_double_crossing] does not
    matter for what it returns: for every word and every pair of indices
    the call returns a configuration for [(i, j)] exactly when it returns
    that configuration for [(j, i)], it throws an invalid-argument error
    for one order exactly when it does for the other, and it is undefined
    for one exactly when it is for the other. The text of the error, which
    names the index that is checked first, is not part of [error] and may
    differ between the two orders. *)
Theorem after_double_crossing_symmetric (s : bridge_state_type) (i j : Z) :
  (∀ s', after_double_crossing s i j = Ret s'
         ↔ after_double_crossing s j i = Ret s')
  ∧ ((∃ e, after_double_crossing s i j = Throw e
           ∧ is_invalid_argument e = true)
     ↔ (∃ e, after_double_crossing s j i = Throw e
             ∧ is_invalid_argument e = true))
  ∧ (after_double_crossing s i j = Undefined
     ↔ after_double_crossing s j i = Undefined).
Proof.
  rewrite (after_double_crossing_swap s i j). split; [done|]. by split.
Qed.

(** X4. Two single crossings in a row, by different people, may be done in
    either order, and they move the same two people as the double crossing
    does, but leave the torch where it was. *)
Theorem single_crossings_compose (n : Z) (s : bridge_state_type) (i j : Z) :
  is_configuration n (state_repr s) → 0 ≤ i < n → 0 ≤ j < n → i ≠ j →
  ∃ q d,
    (s' ← after_single_crossing s i; after_single_crossing s' j) = Ret q
    ∧ (s' ← after_single_crossing s j; after_single_crossing s' i) = Ret q
    ∧ after_double_crossing s i j = Ret d
    ∧ state_repr q = Z.lxor (state_repr d) torch_bit
    ∧ get_torch_crossed q = get_torch_crossed s.
Proof.
  intros Hc Hi Hj Hij.
  assert (∀ a b, 0 ≤ a → 0 ≤ b → a ≠ b → (a = i ∧ b = j) ∨ (a = j ∧ b = i) →
    flip1 (flip1 (state_repr s) a) b = Z.lxor (flip2 (state_repr s) i j) 1)
    as Hflip.
  { intros a b Ha Hb Hab Hor. apply Z.bits_inj'. intros k Hk.
    rewrite Z.lxor_spec, !testbit_flip1, testbit_flip2, testbit_one by lia.
    destruct (Z.testbit (state_repr s) k), (Z.eqb_spec k 0),
      (Z.eqb_spec k (a + 1)), (Z.eqb_spec k (b + 1)),
      (Z.eqb_spec k (i + 1)), (Z.eqb_spec k (j + 1)); simpl; try done; lia. }
  exists (with_repr (Z.lxor (flip2 (state_repr s) i j) 1)),
    (with_repr (flip2 (state_repr s) i j)).
  rewrite !(after_single_crossing_ok n s) by done. simpl.
  rewrite !(after_single_crossing_ok n)
    by (done || by apply configuration_flip1).
  simpl. rewrite !Hflip by (lia || auto).
  rewrite (after_double_crossing_ok n) by done.
  split; [done|]. split; [done|]. split; [done|]. split; [done|].
  rewrite !get_torch_crossed_testbit. simpl. unfold torch_crossed.
  rewrite Z.lxor_spec, testbit_flip2, testbit_one by lia. simpl.
  by destruct (Z.odd (state_repr s)).
Qed.

Lemma single_crossings_compose_example :
  ∃ q d,
    (s' ← after_single_crossing (with_repr 32) 0; after_single_crossing s' 1)
    = Ret q
    ∧ (s' ← after_single_crossing (with_repr 32) 1;
       after_single_crossing s' 0) = Ret q
    ∧ after_double_crossing (with_repr 32) 0 1 = Ret d
    ∧ state_repr q = Z.lxor (state_repr d) torch_bit
    ∧ get_torch_crossed q = get_torch_crossed (with_repr 32).
Proof.
  apply (single_crossings_compose 4 (with_repr 32) 0 1); try lia.
  split; [rewrite max_people_eq|]; simpl; lia.
Defined.

(** X5. After person [i] has crossed alone, the people who may cross next
    are person [i] again, if [i] was allowed to cross, and of the others
    exactly those who were not allowed before. *)
Theorem crossers_after_single_crossing (n : Z) (s : bridge_state_type)
    (i : Z) :
  is_configuration n (state_repr s) → 0 ≤ i < n →
  ∃ m s' m',
    get_possible_crosser_indices s = Ret m
    ∧ after_single_crossing s i = Ret s'
    ∧ get_possible_crosser_indices s' = Ret m'
    ∧ ∀ k, 0 ≤ k < n →
        Z.testbit m' k
        = if k =? i then Z.testbit m k else negb (Z.testbit m k).
Proof.
  intros Hc Hi.
  destruct (get_possible_crosser_indices_ok n s Hc) as (m & Hm & _ & Hb).
  pose proof (configuration_flip1 n _ i Hc Hi) as Hc'.
  destruct (get_possible_crosser_indices_ok n
    (with_repr (flip1 (state_repr s) i)) Hc') as (m' & Hm' & _ & Hb').
  exists m, (with_repr (flip1 (state_repr s) i)), m'.
  split; [done|]. split; [by apply (after_single_crossing_ok n)|].
  split; [done|]. intros k Hk. rewrite Hb, Hb' by lia. simpl.
  unfold eligible, person_crossed. rewrite flip1_flips_torch by lia.
  rewrite testbit_flip1 by lia.
  rewrite (proj2 (Z.ltb_lt k n)) by lia. simpl.
  rewrite (proj2 (Z.eqb_neq (k + 1) 0)) by lia. simpl.
  destruct (Z.eqb_spec k i) as [->|Hne].
  - rewrite Z.eqb_refl.
    by destruct (Z.testbit _ (i + 1)), (torch_crossed _).
  - rewrite (proj2 (Z.eqb_neq (k + 1) (i + 1))) by lia.
    by destruct (Z.testbit _ (k + 1)), (torch_crossed _).
Qed.

Lemma crossers_after_single_crossing_example :
  ∃ m s' m',
    get_possible_crosser_indices (with_repr 32) = Ret m
    ∧ after_single_crossing (with_repr 32) 1 = Ret s'
    ∧ get_possible_crosser_indices s' = Ret m'
    ∧ ∀ k, 0 ≤ k < 4 →
        Z.testbit m' k
        = if k =? 1 then Z.testbit m k else negb (Z.testbit m k).
Proof.
  apply (crossers_after_single_crossing 4 (with_repr 32) 1); [|lia].
  split; [rewrite max_people_eq|]; simpl; lia.
Defined.

(** X6. Words without people. On the words 2 and 3 (sentinel at position
    1) every crosser index is out of range and the mask of possible
    crossers is empty. On the word 1 the bound [leading_one_pos - 1] of the
    index check wraps around, so every index below [2^64 - 1] passes: the
    single crossing then returns the word [2^(i+1)] for an index up to 30
    and shifts by the width of [int] or more, which is undefined, beyond.
    On the word 0, and for the mask on the word 1, [__builtin_clz] is
    called on zero, which is undefined. *)
Theorem words_without_people (i : Z) :
  0 ≤ i →
  after_single_crossing (with_repr 2) i = Throw CrosserIndexOutOfRange
  ∧ after_single_crossing (with_repr 3) i = Throw CrosserIndexOutOfRange
  ∧ get_possible_crosser_indices (with_repr 2) = Ret 0
  ∧ get_possible_crosser_indices (with_repr 3) = Ret 0
  ∧ (i < 2 ^ 64 - 1 → validate_crosser_index 1 i = Ret tt)
  ∧ (i ≤ 30 →
     after_single_crossing (with_repr 1) i = Ret (with_repr (2 ^ (i + 1))))
  ∧ (31 ≤ i < 2 ^ 64 - 1 → after_single_crossing (with_repr 1) i = Undefined)
  ∧ after_single_crossing (with_repr 0) i = Undefined
  ∧ get_possible_crosser_indices (with_repr 1) = Undefined
  ∧ get_possible_crosser_indices (with_repr 0) = Undefined.
Proof.
  intros Hi.
  assert (∀ w, w = 2 ∨ w = 3 →
    after_single_crossing (with_repr w) i = Throw CrosserIndexOutOfRange)
    as H23.
  { intros w Hw. unfold after_single_crossing, validate_crosser_index. simpl.
    assert (get_leading_one_pos w = Ret 1) as -> by by destruct Hw as [->| ->].
    simpl. change (to_size_t (1 - 1)) with 0.
    by rewrite (proj2 (Z.geb_le i 0)) by lia. }
  assert (i < 2 ^ 64 - 1 → validate_crosser_index 1 i = Ret tt) as Hv.
  { intros Hlt. unfold validate_crosser_index.
    change (get_leading_one_pos 1) with (@Ret Z 0). simpl.
    change (to_size_t (0 - 1)) with (2 ^ 64 - 1).
    rewrite Z.geb_leb. by rewrite (proj2 (Z.leb_gt (2 ^ 64 - 1) i)) by lia. }
  split; [apply H23; by left|]. split; [apply H23; by right|].
  split; [done|]. split; [done|]. split; [done|]. split; [|split].
  - intros Hle. unfold after_single_crossing. simpl.
    rewrite Hv by (change (2 ^ 64) with 18446744073709551616; lia). simpl.
    rewrite crosser_bit_ok by lia. simpl. done.
  - intros Hr. unfold after_single_crossing. simpl. rewrite Hv by lia. simpl.
    unfold crosser_bit, shl_int, int_value_type_bit_count.
    rewrite to_size_t_small by lia.
    rewrite (proj2 (Z.ltb_ge (i + 1) 32)) by lia. by rewrite andb_false_r.
  - done.
Qed.

Lemma words_without_people_example :
  after_single_crossing (with_repr 1) 4 = Ret (with_repr (2 ^ (4 + 1))).
Proof.
  refine (proj1 (proj2 (proj2 (proj2 (proj2 (proj2
    (words_without_people 4 _)))))) _); lia.
Defined.

End CrossingOperations.

(** ** The text of a configuration *)

Section AsBits.
Import Cxx bridge_state.
Local Open Scope Z_scope.

Lemma string_app_assoc (a b c : string) : (a +:+ b) +:+ c = a +:+ (b +:+ c).
Proof.
  induction a as [|x a IH]; [done|].
  change (String x ((a +:+ b) +:+ c) = String x (a +:+ (b +:+ c))).
  by f_equal.
Qed.

Lemma string_app_nil (a : string) : a +:+ EmptyString = a.
Proof.
  induction a as [|x a IH]; [done|].
  change (String x (a +:+ EmptyString) = String x a). by f_equal.
Qed.

Lemma string_length_app (a b : string) :
  String.length (a +:+ b) = (String.length a + String.length b)%nat.
Proof.
  induction a as [|x a IH]; [done|].
  change (S (String.length (a +:+ b))
          = S (String.length a + String.length b)).
  by f_equal.
Qed.

Lemma read_bits_app a b acc : read_bits (a +:+ b) acc = read_bits b (read_bits a acc).
Proof.
  revert acc. induction a as [|x a IH]; intros acc; [done|].
  change (String x a +:+ b) with (String x (a +:+ b)). cbn [read_bits].
  destruct (String.eqb (String x EmptyString) "1"); [apply IH|].
  destruct (String.eqb (String x EmptyString) "0"); apply IH.
Qed.

Lemma pow2_shiftl_nat k : Zpos (Pos.shiftl_nat 1 k) = 2 ^ Z.of_nat k.
Proof.
  induction k as [|k IH]; [done|].
  rewrite Nat2Z.inj_succ, Z.pow_succ_r by lia. simpl.
  rewrite Pos2Z.inj_xO. by rewrite IH.
Qed.

Lemma land_pow2 s k :
  0 ≤ k → Z.land s (2 ^ k) = if Z.testbit s k then 2 ^ k else 0.
Proof.
  intros Hk. apply Z.bits_inj'. intros j Hj.
  rewrite Z.land_spec, Z.pow2_bits_eqb by done.
  destruct (Z.eqb_spec k j) as [->|Hne].
  - destruct (Z.testbit s j) eqn:E; simpl.
    + by rewrite Z.pow2_bits_true.
    + by rewrite Z.testbit_0_l.
  - rewrite andb_false_r. destruct (Z.testbit s k).
    + by rewrite Z.pow2_bits_false.
    + by rewrite Z.testbit_0_l.
Qed.

Lemma bit_text_pow2 s k :
  0 ≤ k →
  bit_text s (2 ^ k) = if Z.testbit s k then "1" else "0".
Proof.
  intros Hk. unfold bit_text. rewrite land_pow2 by done.
  destruct (Z.testbit s k); [|done].
  by rewrite (proj2 (Z.eqb_neq (2 ^ k) 0)) by (pose proof (pow2_pos k); lia).
Qed.

Lemma as_bits_loop_text s k acc :
  as_bits_loop s (Pos.shiftl_nat 1 k) acc = acc +:+ person_bits_text s k.
Proof.
  revert acc. induction k as [|k IH]; intros acc.
  - simpl. by rewrite string_app_nil.
  - change (Pos.shiftl_nat 1 (S k)) with (xO (Pos.shiftl_nat 1 k)).
    cbn [as_bits_loop]. rewrite IH.
    change (Zpos (xO (Pos.shiftl_nat 1 k))) with (Zpos (Pos.shiftl_nat 1 (S k))).
    rewrite pow2_shiftl_nat, bit_text_pow2 by lia.
    by rewrite string_app_assoc.
Qed.

Lemma person_bits_text_length s k :
  String.length (person_bits_text s k) = k.
Proof.
  induction k as [|k IH]; [done|]. cbn [person_bits_text].
  rewrite string_length_app, IH. by destruct (Z.testbit s _).
Qed.

Lemma as_bits_text n st :
  0 ≤ n ≤ 30 → 2 ^ (n + 1) ≤ state_repr st < 2 ^ (n + 2) →
  as_bits st
  = Ret (person_bits_text (state_repr st) (Z.to_nat n) +:+ " "
         +:+ if Z.testbit (state_repr st) 0 then "1" else "0").
Proof.
  intros Hn Hs. unfold as_bits.
  pose proof (pow2_pos (n + 1) ltac:(lia)).
  pose proof (pow2_le_mono (n + 2) 32 ltac:(lia)).
  rewrite get_leading_one_pos_word by lia.
  rewrite (log2_sentinel (n + 1))
    by (lia || by replace (n + 1 + 1) with (n + 2) by lia).
  simpl. replace (n + 1 - 1) with n by lia.
  rewrite to_size_t_small by lia. unfold one_as_int_value_type.
  rewrite shl_unsigned_one by lia. simpl.
  rewrite <- (Z2Nat.id n) at 1 by lia. rewrite <- pow2_shiftl_nat.
  rewrite as_bits_loop_text. change 1 with (2 ^ 0) at 1.
  rewrite bit_text_pow2 by lia. simpl. by rewrite string_app_assoc.
Qed.

Lemma land_ones_succ x k :
  0 ≤ k →
  Z.land x (Z.ones (k + 1))
  = (if Z.testbit x k then 2 ^ k else 0) + Z.land x (Z.ones k).
Proof.
  intros Hk. rewrite !Z.land_ones by lia.
  rewrite Z.pow_add_r, Z.pow_1_r by lia.
  pose proof (pow2_pos k Hk).
  rewrite Z.rem_mul_r by lia. rewrite <- Z.testbit_spec' by done.
  destruct (Z.testbit x k); simpl; lia.
Qed.

Lemma read_person_bits_text s k acc :
  read_bits (person_bits_text s k) acc
  = acc * 2 ^ Z.of_nat k + Z.land (Z.shiftr s 1) (Z.ones (Z.of_nat k)).
Proof.
  revert acc. induction k as [|k IH]; intros acc.
  - simpl. rewrite Z.land_0_r. lia.
  - cbn [person_bits_text]. rewrite read_bits_app, IH.
    rewrite Nat2Z.inj_succ, <- Z.add_1_r, land_ones_succ by lia.
    rewrite Z.shiftr_spec by lia.
    rewrite Z.pow_add_r, Z.pow_1_r by lia.
    destruct (Z.testbit s (Z.of_nat k + 1)); simpl; lia.
Qed.

(** The reader gives back the word [as_bits] was given. *)
Lemma read_as_bits n st text :
  0 ≤ n ≤ 30 → 2 ^ (n + 1) ≤ state_repr st < 2 ^ (n + 2) →
  as_bits st = Ret text → read_bits text 1 = state_repr st.
Proof.
  intros Hn Hs. rewrite (as_bits_text n) by done. intros [= <-].
  rewrite !read_bits_app, read_person_bits_text. rewrite Z2Nat.id by lia.
  cbn [read_bits String.eqb Ascii.eqb Bool.eqb andb]. simpl (if false then _ else _).
  set (p := Z.land (Z.shiftr (state_repr st) 1) (Z.ones n)).
  assert (state_repr st = 2 * (2 ^ n + p) + Z.b2z (Z.testbit (state_repr st) 0))
    as Hdec.
  { unfold p. rewrite Z.land_ones, Z.shiftr_div_pow2, Z.pow_1_r by lia.
    rewrite Z.bit0_mod.
    pose proof (Z.div_mod (state_repr st) 2 ltac:(lia)).
    pose proof (pow2_pos n ltac:(lia)).
    replace (n + 2) with (n + 1 + 1) in Hs by lia.
    rewrite !(Z.pow_add_r 2 _ 1), !Z.pow_1_r in Hs by lia.
    pose proof (Z.mod_pos_bound (state_repr st) 2 ltac:(lia)).
    assert (2 ^ n ≤ state_repr st / 2 < 2 ^ n + 2 ^ n) as Hd by lia.
    rewrite <- (Z.mod_unique (state_repr st / 2) (2 ^ n) 1
      (state_repr st / 2 - 2 ^ n)); lia. }
  change (Z.odd (state_repr st)) with (Z.testbit (state_repr st) 0).
  destruct (Z.testbit (state_repr st) 0); simpl in *; lia.
Qed.

(** X7. For a word with the sentinel at position [n + 1] (a configuration
    of [n] people, or the word 2 or 3 with none) [as_bits] returns a text
    of [n + 2] characters: the bits of person [n - 1] down to person 0 as
    [0] or [1], a space, and the torch bit. On the words 0 and 1 it is
    undefined: [__builtin_clz] of zero, and a shift by
    [leading_one_pos - 1] wrapped around. *)
Theorem as_bits_renders (n : Z) (st : bridge_state_type) :
  0 ≤ n ≤ 30 → 2 ^ (n + 1) ≤ state_repr st < 2 ^ (n + 2) →
  (∃ text, as_bits st = Ret text
     ∧ text = person_bits_text (state_repr st) (Z.to_nat n) +:+ " "
              +:+ (if Z.testbit (state_repr st) 0 then "1" else "0")
     ∧ String.length text = Z.to_nat (n + 2))
  ∧ as_bits (with_repr 1) = Undefined
  ∧ as_bits (with_repr 0) = Undefined.
Proof.
  intros Hn Hs. split; [|done].
  rewrite (as_bits_text n) by done. eexists. split; [done|]. split; [done|].
  rewrite !string_length_app, person_bits_text_length.
  destruct (Z.testbit _ 0); simpl; lia.
Qed.

Lemma as_bits_renders_example :
  ∃ text, as_bits (with_repr 43) = Ret text
    ∧ text = person_bits_text 43 (Z.to_nat 4) +:+ " "
             +:+ (if Z.testbit 43 0 then "1" else "0")
    ∧ String.length text = Z.to_nat (4 + 2).
Proof.
  refine (proj1 (as_bits_renders 4 (with_repr 43) _ _)); simpl; lia.
Defined.

(** X8. [as_bits] loses nothing: two words with a sentinel (at position 1
    or higher) that have the same text are the same word. *)
Theorem as_bits_injective (n n' : Z) (st st' : bridge_state_type) :
  0 ≤ n ≤ 30 → 2 ^ (n + 1) ≤ state_repr st < 2 ^ (n + 2) →
  0 ≤ n' ≤ 30 → 2 ^ (n' + 1) ≤ state_repr st' < 2 ^ (n' + 2) →
  as_bits st = as_bits st' → state_repr st = state_repr st'.
Proof.
  intros Hn Hs Hn' Hs' Heq.
  destruct (as_bits st) as [text| | | |] eqn:E;
    try (by rewrite (as_bits_text n) in E).
  rewrite <- (read_as_bits n st text Hn Hs E).
  symmetry in Heq. by rewrite <- (read_as_bits n' st' text Hn' Hs' Heq).
Qed.

Lemma as_bits_injective_example :
  state_repr (with_repr 43) = state_repr (with_repr 43).
Proof.
  apply (as_bits_injective 4 4 (with_repr 43) (with_repr 43));
    simpl; (lia || done).
Defined.

End AsBits.

(** ** What the builder's operations keep *)

Section BuilderKeeps.
Import bridge_state.

Lemma add_crossing_ret sts i c sts' :
  add_crossing sts i c = Ret sts' →
  i < length sts
  ∧ length sts' = length sts
  ∧ (∀ j, node_repr sts' j = node_repr sts j)
  ∧ (∀ j, crossings_at sts' j
          = crossings_at sts j ++ if decide (j = i) then [c] else [])
  ∧ total_records sts' = S (total_records sts).
Proof.
  intros H. assert (i < length sts) as Hi.
  { unfold add_crossing, vector_at in H.
    destruct (sts !! i) eqn:E; [by eapply lookup_lt_Some|done]. }
  destruct (add_crossing_ok sts i c Hi) as (sts0 & H0 & Hl & Hr & Hc).
  rewrite H in H0. injection H0 as <-. do 4 (split; [done|]).
  unfold add_crossing, vector_at in H.
  destruct (sts !! i) as [nd|] eqn:E; [|done]. simpl in H. injection H as <-.
  unfold total_records. rewrite insert_take_drop by done.
  rewrite <- (take_drop_middle sts i nd E) at 3.
  rewrite !sum_list_with_app. simpl. rewrite length_app. simpl. lia.
Qed.

Lemma connect_ret b u v t b' :
  connect b u v t = Ret b' →
  u < length (states b) ∧ v < length (states b)
  ∧ length (states b') = length (states b)
  ∧ (∀ j, node_repr (states b') j = node_repr (states b) j)
  ∧ (∀ j, crossings_at (states b') j
          = crossings_at (states b) j
            ++ (if decide (j = u)
                then [{| state_index_after_crossing := v;
                         time_to_cross := t |}] else [])
            ++ (if decide (j = v)
                then [{| state_index_after_crossing := u;
                         time_to_cross := t |}] else []))
  ∧ state_to_states_index b' = state_to_states_index b
  ∧ connection_count b' = S (connection_count b)
  ∧ total_records (states b') = S (S (total_records (states b))).
Proof.
  unfold connect. intros H.
  destruct (add_crossing (states b) u _) as [sts1| | | |] eqn:E1; try done.
  simpl in H.
  destruct (add_crossing sts1 v _) as [sts2| | | |] eqn:E2; try done.
  simpl in H. injection H as <-. simpl.
  apply add_crossing_ret in E1 as (Hu & Hl1 & Hr1 & Hc1 & Ht1).
  apply add_crossing_ret in E2 as (Hv & Hl2 & Hr2 & Hc2 & Ht2).
  split; [done|]. split; [lia|]. split; [lia|]. split.
  { intros j. by rewrite Hr2, Hr1. }
  split. { intros j. by rewrite Hc2, Hc1, <- app_assoc. }
  split; [done|]. split; [done|]. lia.
Qed.

(** What a returning call of [try_add_or_connect_crossed_state] has done:
    nothing, or a link to a known node, or a new node and a link to it. *)
Lemma try_add_ret b curr crossed t b' :
  try_add_or_connect_crossed_state b curr crossed t = Ret b' →
  (b' = b
   ∧ ∃ v, state_to_states_index b !! state_repr crossed = Some v ∧ v ≤ curr)
  ∨ (∃ v, state_to_states_index b !! state_repr crossed = Some v
       ∧ curr < v
       ∧ connect b curr v t = Ret b')
  ∨ (state_to_states_index b !! state_repr crossed = None
     ∧ connect
         {| states := states b ++ [crossed];
            state_to_states_index :=
              <[state_repr crossed := length (states b)]>
                (state_to_states_index b);
            connection_count := connection_count b |}
         curr (length (states b)) t = Ret b').
Proof.
  unfold try_add_or_connect_crossed_state. intros H.
  destruct (state_to_states_index b !! state_repr crossed) as [v|] eqn:E.
  - destruct (Nat.ltb_spec curr v) as [Hlt|Hge].
    + right. left. by exists v.
    + left. injection H as <-. split; [done|]. by exists v.
  - right. by right.
Qed.

Lemma crossings_at_snoc_any sts x j :
  crossings_at (sts ++ [x]) j
  = if decide (j = length sts) then possible_crossings x
    else crossings_at sts j.
Proof.
  unfold crossings_at. case_decide as Hj.
  - subst. rewrite lookup_app_r by lia. by rewrite Nat.sub_diag.
  - destruct (decide (j < length sts)).
    + by rewrite lookup_app_l.
    + rewrite !lookup_ge_None_2; [done|lia|rewrite length_app; simpl; lia].
Qed.

(** X9. A returning call of [try_add_or_connect_crossed_state] only adds:
    it appends at most one node, keeps the index and the configuration of
    every node, keeps every crossing record and every entry of the map,
    and counts one connection when it changes anything; when the crossed
    configuration is mapped to an index not above the current one it
    returns the builder as it was. *)
Theorem try_add_only_adds (b : builder) (curr : nat)
    (crossed : bridge_state_type) (t : Z) (b' : builder) :
  try_add_or_connect_crossed_state b curr crossed t = Ret b' →
  length (states b) ≤ length (states b') ≤ S (length (states b))
  ∧ (∀ j, j < length (states b) →
       node_repr (states b') j = node_repr (states b) j)
  ∧ (∀ j, crossings_at (states b) j `prefix_of` crossings_at (states b') j)
  ∧ (∀ r v, state_to_states_index b !! r = Some v →
       state_to_states_index b' !! r = Some v)
  ∧ (b' = b ∨ connection_count b' = S (connection_count b))
  ∧ (∀ v, state_to_states_index b !! state_repr crossed = Some v →
       v ≤ curr → b' = b).
Proof.
  intros H. destruct (try_add_ret _ _ _ _ _ H)
    as [[-> (v & Hv & Hle)]|[(v & Hv & Hlt & Hc)|[Hn Hc]]].
  - split; [lia|]. split; [done|]. split; [done|]. split; [done|].
    split; [by left|done].
  - apply connect_ret in Hc as (_ & _ & Hl & Hr & Hcr & Hm & Hcnt & _).
    split; [lia|]. split; [auto|]. split.
    { intros j. rewrite Hcr. by eexists. }
    split; [by rewrite Hm|]. split; [by right|].
    intros v' Hv' Hle. rewrite Hv in Hv'. injection Hv' as <-. lia.
  - apply connect_ret in Hc as (_ & _ & Hl & Hr & Hcr & Hm & Hcnt & _).
    simpl in *. rewrite length_app in Hl. simpl in Hl.
    split; [lia|]. split.
    { intros j Hj. rewrite Hr, node_repr_snoc. by rewrite decide_False by lia. }
    split.
    { intros j. rewrite Hcr, crossings_at_snoc_any. case_decide.
      - rewrite crossings_at_ge by lia. apply prefix_nil.
      - by eexists. }
    split.
    { intros r v Hr'. rewrite Hm. rewrite lookup_insert_ne; [done|].
      intros Heq. rewrite Heq in Hn. congruence. }
    split; [by right|]. intros v Hv. congruence.
Qed.

Lemma try_add_only_adds_example :
  ∃ b', try_add_or_connect_crossed_state
          {| states := [with_repr 32; with_repr 63];
             state_to_states_index := <[63%Z := 1]> (<[32%Z := 0]> ∅);
             connection_count := 0 |} 0 (with_repr 35) 1 = Ret b'
    ∧ 2 ≤ length (states b') ≤ 3.
Proof.
  eexists. split; [reflexivity|].
  exact (proj1 (try_add_only_adds
    {| states := [with_repr 32; with_repr 63];
       state_to_states_index := <[63%Z := 1]> (<[32%Z := 0]> ∅);
       connection_count := 0 |} 0 (with_repr 35) 1 _ eq_refl)).
Defined.

Lemma after_single_crossing_no_records s i s' :
  after_single_crossing s i = Ret s' → possible_crossings s' = [].
Proof.
  unfold after_single_crossing. intros H.
  destruct (validate_crosser_index _ _); try done. simpl in H.
  destruct (crosser_bit i); try done. simpl in H. by injection H as <-.
Qed.

Lemma after_double_crossing_no_records s i j s' :
  after_double_crossing s i j = Ret s' → possible_crossings s' = [].
Proof.
  unfold after_double_crossing. intros H.
  destruct (validate_crosser_index _ i); try done. simpl in H.
  destruct (validate_crosser_index _ j); try done. simpl in H.
  destruct (i =? j)%Z; try done.
  destruct (crosser_bit i); try done. simpl in H.
  destruct (crosser_bit j); try done. simpl in H. by injection H as <-.
Qed.

(** A property every call of [try_add_or_connect_crossed_state] of a turn
    keeps is kept by the loops. *)
Lemma scan_bits_keeps {S} (P : S → Prop) (body : Z → Z → S → outcome S) :
  (∀ it i s s', P s → body it i s = Ret s' → P s') →
  ∀ w i s s', P s → scan_bits body w i s = Ret s' → P s'.
Proof.
  intros Hbody. induction w as [w IH|w IH|]; intros i s s' HP H; simpl in H.
  - destruct (body _ i s) as [s1| | | |] eqn:E; try done. simpl in H.
    eapply IH; [|done]. by eapply Hbody.
  - by eapply IH.
  - by eapply Hbody.
Qed.

Lemma for_each_set_bit_keeps {S} (P : S → Prop)
    (body : Z → Z → S → outcome S) :
  (∀ it i s s', P s → body it i s = Ret s' → P s') →
  ∀ w i s s', P s → for_each_set_bit body w i s = Ret s' → P s'.
Proof.
  intros Hbody w i s s' HP H. destruct w; simpl in H;
    try (by injection H as <-). by eapply scan_bits_keeps.
Qed.

Section Keeps.
Variable times_to_cross : list Z.
Variable curr : nat.
Variable P : builder → Prop.
Hypothesis P_step : ∀ b crossed t b',
  P b → curr < length (states b) → possible_crossings crossed = [] →
  try_add_or_connect_crossed_state b curr crossed t = Ret b' → P b'.

Let Q (b : builder) : Prop := P b ∧ curr < length (states b).

Lemma try_add_keeps b crossed t b' :
  Q b → possible_crossings crossed = [] →
  try_add_or_connect_crossed_state b curr crossed t = Ret b' → Q b'.
Proof.
  intros [HP Hc] Hcr H. split; [by eapply P_step|].
  apply try_add_only_adds in H as [Hl _]. lia.
Qed.

Lemma process_state_keeps b b' :
  P b → process_state times_to_cross curr b = Ret b' → P b'.
Proof.
  unfold process_state, vector_at. intros HP H.
  destruct (states b !! curr) as [nd|] eqn:End; [|done]. simpl in H.
  assert (Q b) as HQ by (split; [done|by eapply lookup_lt_Some]).
  destruct (get_possible_crosser_indices nd) as [m| | | |]; try done.
  simpl in H.
  destruct (for_each_set_bit (single_crossing_step _ _ _) m 0%Z b)
    as [b1| | | |] eqn:E1; try done. simpl in H.
  assert (Q b1) as HQ1.
  { eapply (for_each_set_bit_keeps Q); [|exact HQ|exact E1].
    intros it i s s' Hs Hb. unfold single_crossing_step in Hb.
    destruct (cxx_assert _); try done. simpl in Hb.
    destruct (after_single_crossing nd i) as [c| | | |] eqn:Ec; try done.
    simpl in Hb. destruct (vector_at times_to_cross _); try done.
    simpl in Hb. eapply try_add_keeps; [done| |done].
    by eapply after_single_crossing_no_records. }
  eapply (for_each_set_bit_keeps Q); [|exact HQ1|exact H].
  intros it i s s' Hs Hb. unfold first_crosser_step in Hb.
  destruct (cxx_assert _); try done. simpl in Hb.
  eapply (for_each_set_bit_keeps Q); [|exact Hs|exact Hb].
  intros it2 j s2 s2' Hs2 Hb2. unfold second_crosser_step in Hb2.
  destruct (cxx_assert _); try done. simpl in Hb2.
  destruct (after_double_crossing nd i j) as [c| | | |] eqn:Ec; try done.
  simpl in Hb2.
  destruct (vector_at times_to_cross (Z.to_nat i)); try done. simpl in Hb2.
  destruct (vector_at times_to_cross (Z.to_nat j)); try done. simpl in Hb2.
  eapply try_add_keeps; [done| |done].
  by eapply after_double_crossing_no_records.
Qed.

End Keeps.

Lemma main_loop_keeps (times_to_cross : list Z) (P : builder → Prop) :
  (∀ curr b crossed t b',
     P b → curr < length (states b) → possible_crossings crossed = [] →
     try_add_or_connect_crossed_state b curr crossed t = Ret b' → P b') →
  ∀ fuel curr b b',
    P b → main_loop times_to_cross fuel curr b = Ret b' → P b'.
Proof.
  intros Hstep. induction fuel as [|fuel IH]; intros curr b b' HP H;
    [done|]. simpl in H.
  destruct (curr <? length (states b)); [|by injection H as <-].
  destruct (process_state times_to_cross curr b) as [b1| | | |] eqn:E;
    try done. simpl in H.
  eapply IH; [|done]. eapply process_state_keeps; [|done|done].
  intros. by eapply Hstep.
Qed.

End BuilderKeeps.

(** ** Crossings between configurations *)

Section CrossingPaths.
Local Open Scope Z_scope.
Variable times_to_cross : list Z.
Abbreviation n := (people_count times_to_cross).

(** One legal crossing leads from [a] to [b]. *)
Let step (a b : Z) : Prop := ∃ t, crossing times_to_cross a b t.

Lemma lxor_pow2 x j :
  0 ≤ j →
  Z.lxor x (2 ^ j) = if Z.testbit x j then x - 2 ^ j else x + 2 ^ j.
Proof.
  intros Hj.
  assert (∀ y, Z.testbit y j = false → Z.lxor y (2 ^ j) = y + 2 ^ j) as Hadd.
  { intros y Hy. symmetry. apply Z.add_nocarry_lxor.
    rewrite land_pow2 by done. by rewrite Hy. }
  destruct (Z.testbit x j) eqn:E; [|by apply Hadd].
  assert (Z.testbit (Z.lxor x (2 ^ j)) j = false) as Hy.
  { rewrite Z.lxor_spec, E, Z.pow2_bits_true by done. done. }
  apply Hadd in Hy. rewrite Z.lxor_assoc, Z.lxor_nilpotent, Z.lxor_0_r in Hy.
  lia.
Qed.

Lemma configuration_bits s :
  is_configuration n s →
  Z.testbit s (n + 1) = true ∧ ∀ j, n + 1 < j → Z.testbit s j = false.
Proof.
  intros Hc. split.
  - by destruct (configuration_leading_one n (with_repr s) Hc)
      as (_ & H & _).
  - intros j Hj. apply Z.bits_above_log2.
    + destruct Hc as [? ?]. pose proof (pow2_pos (n + 1)). lia.
    + by rewrite (configuration_log2 n).
Qed.

(** A configuration with the torch on the start bank and somebody on the
    end bank names such a person. *)
Lemma crossed_person s :
  is_configuration n s → torch_crossed s = false → s ≠ 2 ^ (n + 1) →
  ∃ c, 0 ≤ c < n ∧ person_crossed s c = true.
Proof.
  intros Hc Ht Hne. destruct (configuration_bits s Hc) as [Hs Hhi].
  pose proof Hc as [Hn Hr]. rewrite max_people_eq in Hn.
  set (d := Z.lxor s (2 ^ (n + 1))).
  assert (d = s - 2 ^ (n + 1)) as Hd
    by (unfold d; rewrite lxor_pow2 by lia; by rewrite Hs).
  assert (∀ j, 0 ≤ j → Z.testbit d j
    = xorb (Z.testbit s j) (j =? n + 1)) as Hbits.
  { intros j Hj. unfold d. rewrite Z.lxor_spec, Z.pow2_bits_eqb by lia.
    by rewrite (Z.eqb_sym (n + 1) j). }
  assert (0 < d) as Hpos by lia.
  pose proof (Z.bit_log2 d Hpos) as Hlog.
  pose proof (Z.log2_nonneg d) as Hlog0.
  assert (Z.log2 d < n + 1) as Hlt.
  { apply Z.log2_lt_pow2; [done|].
    replace (n + 2) with (n + 1 + 1) in Hr by lia.
    rewrite (Z.pow_add_r 2 (n + 1) 1), Z.pow_1_r in Hr by lia. lia. }
  assert (Z.log2 d ≠ 0) as Hn0.
  { intros H0. rewrite H0, Hbits in Hlog by lia.
    unfold torch_crossed in Ht. rewrite Ht in Hlog.
    by rewrite (proj2 (Z.eqb_neq 0 (n + 1))) in Hlog by lia. }
  exists (Z.log2 d - 1). split; [lia|]. unfold person_crossed.
  replace (Z.log2 d - 1 + 1) with (Z.log2 d) by lia.
  rewrite Hbits in Hlog by lia.
  by rewrite (proj2 (Z.eqb_neq (Z.log2 d) (n + 1))), xorb_false_r in Hlog
    by lia.
Qed.

Lemma eligible_spec s k :
  eligible n s k = true
  ↔ k < n ∧ person_crossed s k = torch_crossed s.
Proof.
  unfold eligible. rewrite andb_true_iff, Z.ltb_lt.
  split; intros [H1 H2]; (split; [done|]).
  - by apply Bool.eqb_prop.
  - rewrite H2. apply Bool.eqb_reflx.
Qed.

(** From a configuration with somebody on the bank of the torch, other
    than the start configuration, legal crossings lead to a smaller such
    configuration. *)
Lemma crossing_down s :
  is_configuration n s → live n s → s ≠ 2 ^ (n + 1) →
  ∃ r, rtc step s r ∧ is_configuration n r ∧ live n r ∧ r < s.
Proof.
  intros Hc (k & Hk & He) Hne. pose proof He as [Hkn Hp]%eligible_spec.
  destruct (torch_crossed s) eqn:Ht.
  - (* the torch is on the end bank: person [k] goes back *)
    exists (flip1 s k). split; [|split; [|split]].
    + apply rtc_once. exists (time_of times_to_cross k). by constructor.
    + by apply configuration_flip1.
    + exists k. split; [done|]. by apply eligible_flip1.
    + pose proof (lxor_pow2 s 0 ltac:(lia)) as H1.
      unfold torch_crossed in Ht. rewrite Ht in H1.
      change (2 ^ 0) with 1 in H1.
      unfold flip1. rewrite lxor_pow2 by lia.
      rewrite Z.lxor_spec, testbit_one by lia.
      rewrite (proj2 (Z.eqb_neq (k + 1) 0)) by lia.
      unfold person_crossed in Hp. rewrite Hp. simpl.
      pose proof (pow2_pos (k + 1)). lia.
  - (* the torch is on the start bank: person [k] goes over and comes
       back together with a person [c] from the end bank *)
    destruct (crossed_person s Hc Ht Hne) as (c & Hcn & Hpc).
    assert (k ≠ c) as Hkc by (intros ->; congruence).
    set (s1 := flip1 s k).
    assert (is_configuration n s1) as Hc1 by by apply configuration_flip1.
    assert (eligible n s1 k = true) as He1 by by apply eligible_flip1.
    assert (eligible n s1 c = true) as He1c.
    { apply eligible_spec. split; [lia|]. unfold s1.
      rewrite flip1_flips_torch, Ht by lia. unfold person_crossed in *.
      rewrite testbit_flip1 by lia.
      rewrite (proj2 (Z.eqb_neq (c + 1) 0)),
        (proj2 (Z.eqb_neq (c + 1) (k + 1))) by lia.
      by rewrite Hpc. }
    assert (flip2 s1 k c = Z.lxor s (2 ^ (c + 1))) as Hs2.
    { apply Z.bits_inj'. intros j Hj. unfold s1.
      rewrite testbit_flip2, testbit_flip1, Z.lxor_spec, Z.pow2_bits_eqb
        by lia.
      rewrite (Z.eqb_sym (c + 1) j).
      destruct (Z.testbit s j), (Z.eqb_spec j 0), (Z.eqb_spec j (k + 1)),
        (Z.eqb_spec j (c + 1)); simpl; try done; lia. }
    exists (flip2 s1 k c). split; [|split; [|split]].
    + apply (rtc_l _ _ s1).
      { exists (time_of times_to_cross k). by constructor. }
      apply rtc_once. destruct (decide (k < c)).
      * exists (Z.max (time_of times_to_cross k) (time_of times_to_cross c)).
        constructor; [lia|done|done].
      * exists (Z.max (time_of times_to_cross c) (time_of times_to_cross k)).
        rewrite flip2_comm. constructor; [lia|done|done].
    + apply configuration_flip2; [done|lia|lia].
    + exists k. split; [done|].
      apply eligible_flip2; [lia|lia|done|by left|done].
    + rewrite Hs2, lxor_pow2 by lia. unfold person_crossed in Hpc.
      rewrite Hpc. pose proof (pow2_pos (c + 1)). lia.
Qed.

(** Legal crossings lead from every configuration with somebody on the
    bank of the torch to the start configuration. *)
Lemma crossing_to_start s :
  is_configuration n s → live n s → rtc step s (2 ^ (n + 1)).
Proof.
  assert (∀ m : nat, ∀ s, Z.to_nat s = m →
    is_configuration n s → live n s → rtc step s (2 ^ (n + 1))) as Hind.
  { induction m as [m IH] using lt_wf_ind. intros s0 Hm Hc Hl.
    destruct (decide (s0 = 2 ^ (n + 1))) as [->|Hne]; [done|].
    destruct (crossing_down s0 Hc Hl Hne) as (r & Hr & Hcr & Hlr & Hlt).
    etrans; [done|]. apply (IH (Z.to_nat r)); [|done..].
    destruct Hcr as [_ [? _]]. pose proof (pow2_pos (n + 1)).
    destruct Hc as [? _]. lia. }
  intros Hc Hl. by apply (Hind (Z.to_nat s)).
Qed.

Lemma step_sym a b : step a b → step b a.
Proof. intros [t H]. exists t. by apply crossing_sym. Qed.

Lemma crossing_from_start s :
  is_configuration n s → live n s → rtc step (2 ^ (n + 1)) s.
Proof.
  intros Hc Hl. pose proof (crossing_to_start s Hc Hl) as H. revert H.
  apply (rtc_ind_l (λ x, rtc step (2 ^ (n + 1)) x)); [done|].
  intros x y Hxy _ IH. eapply rtc_r; [exact IH|]. by apply step_sym.
Qed.

End CrossingPaths.

(** ** More about the constructed graph *)

Section FurtherGraph.
Import bridge_state.
Variable times_to_cross : list Z.
Abbreviation n := (people_count times_to_cross).

(** The run of [main] on 1 to 29 people, with its builders. *)
Lemma main_run :
  (1 ≤ n ≤ 29)%Z →
  ∃ b0 b,
    initial_builder times_to_cross = Ret b0
    ∧ states b0 = [with_repr (2 ^ (n + 1)); with_repr (2 ^ (n + 2) - 1)]
    ∧ connection_count b0 = 0
    ∧ (∀ fuel, enough_fuel times_to_cross ≤ fuel →
         main_loop times_to_cross fuel 0 b0 = Ret b)
    ∧ returns times_to_cross (states b)
    ∧ inv times_to_cross (length (states b)) [] b.
Proof.
  intros Hn.
  destruct (initial_builder_inv times_to_cross Hn) as (b0 & Hb0 & Hinv0 & Hst).
  assert (connection_count b0 = 0) as Hc0.
  { unfold initial_builder in Hb0.
    rewrite start_ok, end_ok in Hb0 by (rewrite max_people_eq; lia).
    simpl in Hb0. by injection Hb0 as <-. }
  destruct (main_loop_inv times_to_cross (enough_fuel times_to_cross) 0 b0)
    as (b & Hb & Hinv); [lia|done|lia|unfold enough_fuel; lia|].
  assert (∀ fuel, enough_fuel times_to_cross ≤ fuel →
    main_loop times_to_cross fuel 0 b0 = Ret b) as Hall.
  { intros fuel Hle.
    by apply (main_loop_fuel_mono _ (enough_fuel times_to_cross)). }
  exists b0, b. do 4 (split; [done|]). split; [|done].
  intros fuel Hle. unfold main.
  rewrite max_possible_states_ok by done. simpl. rewrite Hb0. simpl.
  by rewrite Hall.
Qed.

Lemma total_records_snoc sts x :
  total_records (sts ++ [x])
  = total_records sts + length (possible_crossings x).
Proof. unfold total_records. rewrite sum_list_with_app. simpl. lia. Qed.

Lemma edge_prefix sts sts' v u t :
  crossings_at sts v `prefix_of` crossings_at sts' v →
  edge sts v u t → edge sts' v u t.
Proof.
  unfold edge. intros [k ->] H. apply elem_of_app. by left.
Qed.

Lemma lower_record_step curr b crossed t b' :
  lower_record b → curr < length (states b) →
  possible_crossings crossed = [] →
  try_add_or_connect_crossed_state b curr crossed t = Ret b' →
  lower_record b'.
Proof.
  intros HP Hcurr _ H v Hv.
  pose proof (try_add_only_adds _ _ _ _ _ H) as (Hl & _ & Hpre & _).
  destruct (decide (v < length (states b))) as [Hlt|Hge].
  - destruct (HP v ltac:(lia)) as (u & t' & Hu & He).
    exists u, t'. split; [done|]. eapply edge_prefix; [apply Hpre|done].
  - assert (v = length (states b)) as -> by lia.
    destruct (try_add_ret _ _ _ _ _ H)
      as [[-> _]|[(v0 & _ & _ & Hc)|[_ Hc]]]; [lia| |].
    + apply connect_ret in Hc as (_ & _ & Hl' & _). lia.
    + apply connect_ret in Hc as (_ & _ & _ & _ & Hcr & _). simpl in Hcr.
      exists curr, t. split; [done|]. unfold edge. rewrite Hcr.
      rewrite !elem_of_app. right. right.
      rewrite decide_True by done. by apply list_elem_of_singleton.
Qed.

Lemma records_counted_step curr b crossed t b' :
  total_records (states b) = 2 * connection_count b →
  curr < length (states b) → possible_crossings crossed = [] →
  try_add_or_connect_crossed_state b curr crossed t = Ret b' →
  total_records (states b') = 2 * connection_count b'.
Proof.
  intros HP _ Hcr H.
  destruct (try_add_ret _ _ _ _ _ H)
    as [[-> _]|[(v0 & _ & _ & Hc)|[_ Hc]]]; [done| |].
  - apply connect_ret in Hc as (_ & _ & _ & _ & _ & _ & Hcnt & Ht). lia.
  - apply connect_ret in Hc as (_ & _ & _ & _ & _ & _ & Hcnt & Ht).
    simpl in *. rewrite total_records_snoc, Hcr in Ht. simpl in Ht. lia.
Qed.

Lemma first_nodes_step a e curr b crossed t b' :
  node_repr (states b) 0 = Some a ∧ node_repr (states b) 1 = Some e →
  curr < length (states b) → possible_crossings crossed = [] →
  try_add_or_connect_crossed_state b curr crossed t = Ret b' →
  node_repr (states b') 0 = Some a ∧ node_repr (states b') 1 = Some e.
Proof.
  intros [H0 H1] _ _ H.
  pose proof (try_add_only_adds _ _ _ _ _ H) as (_ & Hr & _).
  split; (rewrite Hr; [done|by eapply node_repr_lt]).
Qed.

(** X10. When the loop of [main] ends, [connection_count] is the number
    of reciprocal pairs: the nodes hold twice as many crossing records as
    connections were counted. *)
Theorem connection_count_counts_pairs :
  (1 ≤ n ≤ 29)%Z →
  ∃ b0 b,
    initial_builder times_to_cross = Ret b0
    ∧ (∀ fuel, enough_fuel times_to_cross ≤ fuel →
         main_loop times_to_cross fuel 0 b0 = Ret b)
    ∧ returns times_to_cross (states b)
    ∧ total_records (states b) = 2 * connection_count b.
Proof.
  intros Hn. destruct (main_run Hn) as (b0 & b & Hb0 & Hst & Hc0 & Hb & Hr & _).
  exists b0, b. do 3 (split; [done|]).
  eapply (main_loop_keeps times_to_cross
    (λ b, total_records (states b) = 2 * connection_count b));
    [apply records_counted_step| |exact (Hb _ (le_n _))].
  by rewrite Hst, Hc0.
Qed.

(** X11. The start configuration is node 0 and the end configuration is
    node 1 of the constructed graph. *)
Theorem start_end_first_nodes :
  (1 ≤ n ≤ 29)%Z →
  ∃ g s e, returns times_to_cross g
    ∧ start n = Ret s ∧ end_ n = Ret e
    ∧ node_repr g 0 = Some (state_repr s)
    ∧ node_repr g 1 = Some (state_repr e).
Proof.
  intros Hn. destruct (main_run Hn) as (b0 & b & Hb0 & Hst & Hc0 & Hb & Hr & _).
  exists (states b), (with_repr (2 ^ (n + 1))),
    (with_repr (2 ^ (n + 2) - 1)).
  split; [done|].
  split; [apply start_ok; rewrite max_people_eq; lia|].
  split; [apply end_ok; rewrite max_people_eq; lia|].
  eapply (main_loop_keeps times_to_cross
    (λ b, node_repr (states b) 0 = Some _ ∧ node_repr (states b) 1 = Some _));
    [apply first_nodes_step| |exact (Hb _ (le_n _))].
  by rewrite Hst.
Qed.

(** X12. Every node of the constructed graph other than the start and the
    end node holds a crossing record that leads to a node of lower index:
    the node it was found from. *)
Theorem nodes_found_from_lower :
  (1 ≤ n ≤ 29)%Z →
  ∃ g, returns times_to_cross g
    ∧ ∀ v, 2 ≤ v < length g → ∃ u t, u < v ∧ edge g v u t.
Proof.
  intros Hn. destruct (main_run Hn) as (b0 & b & Hb0 & Hst & Hc0 & Hb & Hr & _).
  exists (states b). split; [done|].
  eapply (main_loop_keeps times_to_cross lower_record);
    [apply lower_record_step| |exact (Hb _ (le_n _))].
  intros v Hv. rewrite Hst in Hv. simpl in Hv. lia.
Qed.

Section FinalGraph.
Local Open Scope Z_scope.

Lemma live_mask r :
  is_configuration n r →
  live n r
  ↔ ∃ m, get_possible_crosser_indices (with_repr r) = Ret m ∧ m ≠ 0.
Proof.
  intros Hc.
  destruct (get_possible_crosser_indices_ok n (with_repr r) Hc)
    as (m & Hm & Hr & Hb). simpl in Hb. split.
  - intros (k & Hk & He). exists m. split; [done|]. intros ->.
    rewrite <- Hb, Z.testbit_0_l in He by done. done.
  - intros (m' & Hm' & Hne). rewrite Hm in Hm'. injection Hm' as <-.
    exists (Z.log2 m). split; [apply Z.log2_nonneg|].
    rewrite <- Hb by apply Z.log2_nonneg. apply Z.bit_log2. lia.
Qed.

Lemma live_dec r : is_configuration n r → live n r ∨ ¬ live n r.
Proof.
  intros Hc.
  destruct (get_possible_crosser_indices_ok n (with_repr r) Hc)
    as (m & Hm & Hr & Hb).
  destruct (decide (m = 0)) as [->|Hne].
  - right. intros [m' [Hm' Hne]]%live_mask; [|done]. congruence.
  - left. apply live_mask; [done|]. by exists m.
Qed.

Lemma crossing_live a b t : crossing times_to_cross a b t → live n a.
Proof. intros [i Hi He|i j Hij Hei Hej]; exists i; (split; [lia|done]). Qed.

(** The two configurations with nobody on the bank of the torch. *)
Lemma dead_start_bits j :
  0 ≤ j → 1 ≤ n →
  Z.testbit (2 ^ (n + 1) + 1) j = (j =? n + 1) || (j =? 0).
Proof.
  intros Hj Hn.
  replace (2 ^ (n + 1) + 1) with (Z.lxor (2 ^ (n + 1)) (2 ^ 0)).
  - rewrite Z.lxor_spec, !Z.pow2_bits_eqb by lia.
    rewrite (Z.eqb_sym (n + 1) j), (Z.eqb_sym 0 j).
    destruct (Z.eqb_spec j (n + 1)), (Z.eqb_spec j 0); simpl; try done. lia.
  - rewrite lxor_pow2 by lia. rewrite Z.pow2_bits_false by lia. done.
Qed.

Lemma dead_end_bits j :
  0 ≤ j → 1 ≤ n →
  Z.testbit (2 ^ (n + 2) - 2) j = (j <? n + 2) && negb (j =? 0).
Proof.
  intros Hj Hn.
  replace (2 ^ (n + 2) - 2) with (Z.lxor (Z.ones (n + 2)) (2 ^ 0)).
  - rewrite Z.lxor_spec, Z.pow2_bits_eqb, Z.testbit_ones_nonneg by lia.
    rewrite (Z.eqb_sym 0 j).
    destruct (Z.ltb_spec j (n + 2)), (Z.eqb_spec j 0); simpl; try done. lia.
  - rewrite lxor_pow2 by lia. rewrite Z.testbit_ones_nonneg by lia.
    rewrite (proj2 (Z.ltb_lt 0 (n + 2))) by lia.
    rewrite Z.ones_equiv. change (2 ^ 0) with 1. lia.
Qed.

Lemma dead_not_live r :
  1 ≤ n → r = 2 ^ (n + 1) + 1 ∨ r = 2 ^ (n + 2) - 2 → ¬ live n r.
Proof.
  intros Hn Hr (k & Hk & [Hkn Hp]%eligible_spec).
  unfold person_crossed, torch_crossed in Hp. destruct Hr as [-> | ->].
  - rewrite !dead_start_bits in Hp by lia.
    rewrite (proj2 (Z.eqb_neq (k + 1) (n + 1))),
      (proj2 (Z.eqb_neq (k + 1) 0)), (proj2 (Z.eqb_neq 0 (n + 1))) in Hp
      by lia. done.
  - rewrite !dead_end_bits in Hp by lia.
    rewrite (proj2 (Z.ltb_lt (k + 1) (n + 2))),
      (proj2 (Z.eqb_neq (k + 1) 0)) in Hp by lia.
    change (negb (0 =? 0)) with false in Hp.
    rewrite andb_false_r in Hp. done.
Qed.

Lemma not_live_dead r :
  is_configuration n r → ¬ live n r →
  r = 2 ^ (n + 1) + 1 ∨ r = 2 ^ (n + 2) - 2.
Proof.
  intros Hc Hnl. destruct (configuration_bits times_to_cross r Hc) as [Hs Hhi].
  pose proof Hc as [Hn _]. rewrite max_people_eq in Hn.
  assert (∀ j, 1 ≤ j ≤ n → Z.testbit r j = negb (Z.testbit r 0)) as Hp.
  { intros j Hj. destruct (Bool.eqb (Z.testbit r j) (Z.testbit r 0)) eqn:E.
    - exfalso. apply Hnl. exists (j - 1). split; [lia|].
      apply eligible_spec. split; [lia|]. unfold person_crossed, torch_crossed.
      replace (j - 1 + 1) with j by lia. by apply Bool.eqb_prop.
    - by destruct (Z.testbit r j), (Z.testbit r 0). }
  destruct (Z.testbit r 0) eqn:Ht; [left|right]; apply Z.bits_inj';
    intros j Hj.
  - rewrite dead_start_bits by lia.
    destruct (Z.eqb_spec j (n + 1)) as [->|H1]; [done|].
    destruct (Z.eqb_spec j 0) as [->|H0]; [done|]. simpl.
    destruct (decide (j ≤ n)); [by rewrite Hp by lia|apply Hhi; lia].
  - rewrite dead_end_bits by lia.
    destruct (Z.eqb_spec j 0) as [->|H0]; [by rewrite andb_false_r|].
    destruct (Z.ltb_spec j (n + 2)); simpl; [|apply Hhi; lia].
    destruct (decide (j = n + 1)) as [->|]; [done|]. by rewrite Hp by lia.
Qed.

(** The facts about the graph [main] returns that the theorems below
    use. *)
Lemma main_graph_facts :
  1 ≤ n ≤ 29 →
  ∃ g, returns times_to_cross g
    ∧ node_repr g 0 = Some (2 ^ (n + 1))
    ∧ node_repr g 1 = Some (2 ^ (n + 2) - 1)
    ∧ (∀ v, (2 ≤ v < length g)%nat → ∃ u t, (u < v)%nat ∧ edge g v u t)
    ∧ crossings_recorded times_to_cross g
    ∧ records_legal times_to_cross g
    ∧ NoDup (state_repr <$> g)
    ∧ (∀ v r, node_repr g v = Some r → is_configuration n r).
Proof.
  intros Hn.
  destruct (main_run Hn) as (b0 & b & Hb0 & Hst & Hc0 & Hb & Hr & Hinv).
  exists (states b). split; [done|].
  assert (node_repr (states b) 0 = Some (2 ^ (n + 1))
          ∧ node_repr (states b) 1 = Some (2 ^ (n + 2) - 1)) as [H0 H1].
  { eapply (main_loop_keeps times_to_cross
      (λ b, node_repr (states b) 0 = Some _
            ∧ node_repr (states b) 1 = Some _));
      [apply first_nodes_step| |exact (Hb _ (le_n _))]. by rewrite Hst. }
  split; [done|]. split; [done|]. split.
  { eapply (main_loop_keeps times_to_cross lower_record);
      [apply lower_record_step| |exact (Hb _ (le_n _))].
    intros v Hv. rewrite Hst in Hv. simpl in Hv. lia. }
  split; [by apply inv_crossings_recorded|].
  split; [exact (inv_legal _ _ _ _ Hinv)|].
  split; [by eapply inv_nodes_distinct|].
  exact (inv_conf _ _ _ _ Hinv).
Qed.

Lemma node_is_live g v r :
  1 ≤ n →
  node_repr g 0 = Some (2 ^ (n + 1)) →
  node_repr g 1 = Some (2 ^ (n + 2) - 1) →
  (∀ v, (2 ≤ v < length g)%nat → ∃ u t, (u < v)%nat ∧ edge g v u t) →
  records_legal times_to_cross g →
  node_repr g v = Some r → live n r.
Proof.
  intros Hn H0 H1 Hlow Hleg Hv.
  destruct v as [|[|v]].
  - rewrite H0 in Hv. injection Hv as <-. exists 0. split; [done|].
    rewrite eligible_start by lia. apply Z.ltb_lt. lia.
  - rewrite H1 in Hv. injection Hv as <-. exists 0. split; [done|].
    rewrite eligible_end by lia. apply Z.ltb_lt. lia.
  - destruct (Hlow (S (S v))) as (u & t & _ & He).
    { apply node_repr_lt in Hv. lia. }
    destruct (Hleg _ _ _ He) as (ru & rv & Hru & _ & Hc).
    rewrite Hv in Hru. injection Hru as <-. by eapply crossing_live.
Qed.

Lemma live_is_node g r :
  node_repr g 0 = Some (2 ^ (n + 1)) →
  crossings_recorded times_to_cross g →
  is_configuration n r → live n r →
  ∃ v, node_repr g v = Some r ∧ reachable g 0 v.
Proof.
  intros H0 Hrec Hc Hl.
  pose proof (crossing_from_start times_to_cross r Hc Hl) as Hpath.
  clear Hc Hl. revert r Hpath. apply rtc_ind_r.
  - exists 0%nat. split; [done|constructor].
  - intros a b Ha [t Hab] (v & Hv & Hreach).
    destruct (Hrec v a b t Hv Hab) as (w & Hw & He).
    exists w. split; [done|]. by econstructor.
Qed.

Lemma elem_of_reprs (g : list bridge_state_type) r :
  r ∈ state_repr <$> g ↔ ∃ v, node_repr g v = Some r.
Proof.
  unfold node_repr. rewrite list_elem_of_lookup.
  by setoid_rewrite list_lookup_fmap.
Qed.

(** X13. For 1 to 29 people the nodes of the graph [main] builds are exactly
    the configurations of that many people for which
    [get_possible_crosser_indices] gives a nonzero mask: the words with the
    sentinel in place and somebody on the bank of the torch. *)
Theorem nodes_are_configurations_with_crossers :
  1 ≤ n ≤ 29 →
  ∃ g, returns times_to_cross g
    ∧ ∀ r, (∃ v, node_repr g v = Some r)
           ↔ is_configuration n r
             ∧ ∃ m, get_possible_crosser_indices (with_repr r) = Ret m
                    ∧ m ≠ 0.
Proof.
  intros Hn.
  destruct (main_graph_facts Hn)
    as (g & Hr & H0 & H1 & Hlow & Hrec & Hleg & Hnd & Hconf).
  exists g. split; [done|]. intros r. split.
  - intros [v Hv]. pose proof (Hconf _ _ Hv) as Hc. split; [done|].
    apply live_mask; [done|]. eapply node_is_live; [lia|done..].
  - intros [Hc Hm]. apply live_mask in Hm; [|done].
    destruct (live_is_node g r H0 Hrec Hc Hm) as (v & Hv & _). by exists v.
Qed.

(** X14. For 1 to 29 people every node of the graph [main] builds is
    reached from node 0, the start configuration, along crossing
    records. *)
Theorem every_node_reachable_from_start :
  1 ≤ n ≤ 29 →
  ∃ g, returns times_to_cross g
    ∧ ∀ v, (v < length g)%nat → reachable g 0 v.
Proof.
  intros Hn.
  destruct (main_graph_facts Hn)
    as (g & Hr & H0 & H1 & Hlow & Hrec & Hleg & Hnd & Hconf).
  exists g. split; [done|]. intros v Hv.
  destruct (node_repr_is_Some g v Hv) as [r Hvr].
  assert (live n r) as Hl by (eapply node_is_live; [lia|done..]).
  destruct (live_is_node g r H0 Hrec (Hconf _ _ Hvr) Hl) as (w & Hw & Hreach).
  replace v with w; [done|].
  unfold node_repr in Hw, Hvr. rewrite <- list_lookup_fmap in Hw, Hvr.
  by eapply NoDup_lookup.
Qed.

(** X15. For 1 to 29 people the graph [main] builds has exactly
    [2^(people_count + 1) - 2] nodes, which is the value of
    [max_possible_states] that [main] reserves room for. *)
Theorem node_count_is_max_possible_states :
  1 ≤ n ≤ 29 →
  ∃ g, returns times_to_cross g
    ∧ Z.of_nat (length g) = 2 ^ (n + 1) - 2
    ∧ max_possible_states times_to_cross = Ret (Z.of_nat (length g)).
Proof.
  intros Hn.
  destruct (main_graph_facts Hn)
    as (g & Hr & H0 & H1 & Hlow & Hrec & Hleg & Hnd & Hconf).
  exists g. split; [done|].
  assert (Z.of_nat (length g) = 2 ^ (n + 1) - 2) as Hlen;
    [|split; [done|rewrite Hlen; by apply max_possible_states_ok]].
  pose proof (pow2_le_mono 2 (n + 1) ltac:(lia)) as Hp. change (2 ^ 2) with 4 in Hp.
  assert (2 ^ (n + 2) = 2 * 2 ^ (n + 1)) as Hd.
  { replace (n + 2) with (Z.succ (n + 1)) by lia. apply Z.pow_succ_r. lia. }
  assert (∀ x, x ∈ state_repr <$> g → live n x) as Hlive.
  { intros x [v Hv]%elem_of_reprs. eapply node_is_live; [lia|done..]. }
  assert ((state_repr <$> g) ++ [2 ^ (n + 1) + 1; 2 ^ (n + 2) - 2]
          ≡ₚ seqZ (2 ^ (n + 1)) (2 ^ (n + 1))) as Hperm.
  { apply NoDup_Permutation.
    - apply NoDup_app. split; [done|]. split.
      + intros x Hx Hd'. apply (dead_not_live x); [lia| |by apply Hlive].
        apply list_elem_of_In in Hd'. simpl in Hd'.
        destruct Hd' as [<-|[<-|[]]]; auto.
      + apply NoDup_cons. split; [|apply NoDup_singleton].
        rewrite list_elem_of_singleton. lia.
    - apply NoDup_seqZ.
    - intros x. rewrite elem_of_seqZ, elem_of_app. split.
      + intros [[v Hv]%elem_of_reprs|Hx].
        * destruct (Hconf _ _ Hv) as [_ Hx]. lia.
        * apply list_elem_of_In in Hx. simpl in Hx.
          destruct Hx as [<-|[<-|[]]]; lia.
      + intros Hx.
        assert (is_configuration n x) as Hc.
        { split; [rewrite max_people_eq|]; lia. }
        destruct (live_dec x Hc) as [Hl|Hl].
        * left. apply elem_of_reprs.
          destruct (live_is_node g x H0 Hrec Hc Hl) as (v & Hv & _).
          by exists v.
        * right. apply list_elem_of_In. simpl.
          destruct (not_live_dead x Hc Hl) as [->| ->]; auto. }
  apply Permutation_length in Hperm.
  rewrite length_app, length_fmap, length_seqZ in Hperm. simpl in Hperm. lia.
Qed.

End FinalGraph.

End FurtherGraph.

Lemma connection_count_counts_pairs_example :
  ∃ b0 b, initial_builder example_times = Ret b0
    ∧ (∀ fuel, enough_fuel example_times ≤ fuel →
         main_loop example_times fuel 0 b0 = Ret b)
    ∧ returns example_times (states b)
    ∧ total_records (states b) = 2 * connection_count b.
Proof.
  apply (connection_count_counts_pairs example_times).
  change (people_count example_times) with 4%Z. lia.
Defined.

Lemma start_end_first_nodes_example :
  ∃ g s e, returns example_times g
    ∧ bridge_state.start 4 = Ret s ∧ bridge_state.end_ 4 = Ret e
    ∧ node_repr g 0 = Some (state_repr s)
    ∧ node_repr g 1 = Some (state_repr e).
Proof.
  apply (start_end_first_nodes example_times).
  change (people_count example_times) with 4%Z. lia.
Defined.

Lemma nodes_found_from_lower_example :
  ∃ g, returns example_times g
    ∧ ∀ v, 2 ≤ v < length g → ∃ u t, u < v ∧ edge g v u t.
Proof.
  apply (nodes_found_from_lower example_times).
  change (people_count example_times) with 4%Z. lia.
Defined.

Lemma nodes_are_configurations_with_crossers_example :
  ∃ g, returns example_times g
    ∧ ∀ r, (∃ v, node_repr g v = Some r)
           ↔ is_configuration 4 r
             ∧ ∃ m, bridge_state.get_possible_crosser_indices (with_repr r)
                    = Ret m ∧ m ≠ 0%Z.
Proof.
  apply (nodes_are_configurations_with_crossers example_times).
  change (people_count example_times) with 4%Z. lia.
Defined.

Lemma every_node_reachable_from_start_example :
  ∃ g, returns example_times g
    ∧ ∀ v, v < length g → reachable g 0 v.
Proof.
  apply (every_node_reachable_from_start example_times).
  change (people_count example_times) with 4%Z. lia.
Defined.

Lemma node_count_is_max_possible_states_example :
  ∃ g, returns example_times g
    ∧ Z.of_nat (length g) = (2 ^ (4 + 1) - 2)%Z
    ∧ max_possible_states example_times = Ret (Z.of_nat (length g)).
Proof.
  apply (node_count_is_max_possible_states example_times).
  change (people_count example_times) with 4%Z. lia.
Defined.

Section MainRange.
Import Cxx bridge_state.
Local Open Scope Z_scope.

(** X16. With no people [main] fails with [PersonCountOutOfRange], thrown
    by [start]; with 30 people or more the computation of
    [max_possible_states] on [int] is undefined before a node is made,
    although [start] accepts 30 people. *)
Theorem main_outside_people_range (times_to_cross : list Z) (fuel : nat) :
  (people_count times_to_cross = 0 →
     main times_to_cross fuel = Throw PersonCountOutOfRange)
  ∧ (30 ≤ people_count times_to_cross < 2 ^ 64 - 1 →
     main times_to_cross fuel = Undefined
     ∧ start 30 = Ret (with_repr (2 ^ 31))).
Proof.
  unfold main, max_possible_states, initial_builder. split.
  - intros ->. rewrite start_throw by (rewrite max_people_eq; lia). done.
  - intros Hn. split; [|by rewrite start_ok by (rewrite max_people_eq; lia)].
   
    rewrite to_size_t_small by lia. unfold shl_int, int_value_type_bit_count.
    rewrite (proj2 (Z.leb_le 0 _)) by lia.
    destruct (Z.ltb_spec (people_count times_to_cross + 1) 32); [|done].
    replace (people_count times_to_cross + 1) with 31 by lia. done.
Qed.

End MainRange.

